(** * gemini-flow-ui: suggestion extraction and conversation state

    A shallow embedding of the two pieces of logic of the chat client:

    - the suggestion extractor of [components/MessageBubble.tsx] (the
      [useMemo] block), together with the JavaScript primitives it calls
      ([String.prototype.match], [replace], [split], [trim],
      [RegExp.prototype.test], [JSON.parse], [Array.isArray]);
    - the conversation handlers of [App.tsx] ([handleSendMessage],
      [handleStop], [handleRegenerate], [handleEdit], [handleClearChat])
      over the adapter of [services/geminiService].

    JavaScript strings are sequences of UTF-16 code units, so a string is a
    list of code units here. *)

From Stdlib Require Import String Ascii DecimalString.
From Stdlib Require DecimalZ DecimalPos.
From Stdlib Require Import List NArith ZArith Bool Lia.
Import ListNotations.

Set Implicit Arguments.
Set Warnings "-register-all".

(* ================================================================== *)
(** ** JavaScript strings *)
(* ================================================================== *)

Module JS.

(** A UTF-16 code unit, and a string of them. *)
Abbreviation char := N (only parsing).
Abbreviation jsstring := (list N) (only parsing).

(** An ASCII literal of the source, as code units. *)
Definition units (s : string) : jsstring :=
  map N_of_ascii (list_ascii_of_string s).

(** [a === b] on strings. *)
Definition eqb_string (a b : jsstring) : bool :=
  if list_eq_dec N.eq_dec a b then true else false.

(** [WhiteSpace] and [LineTerminator] of ECMAScript: what [\s] matches and
    what [trim] strips. *)
Definition is_space (c : char) : bool :=
  ((9 <=? c) && (c <=? 13) || (c =? 32) || (c =? 160) || (c =? 5760)
   || (8192 <=? c) && (c <=? 8202) || (c =? 8232) || (c =? 8233)
   || (c =? 8239) || (c =? 8287) || (c =? 12288) || (c =? 65279))%N.

(** [[\s\S]]: every code unit. *)
Definition any_char (c : char) : bool := is_space c || negb (is_space c).

Fixpoint trimStart (s : jsstring) : jsstring :=
  match s with
  | c :: r => if is_space c then trimStart r else s
  | [] => []
  end.

Definition trimEnd (s : jsstring) : jsstring := rev (trimStart (rev s)).

(** [String.prototype.trim]. *)
Definition trim (s : jsstring) : jsstring := trimEnd (trimStart s).

(** [String.prototype.startsWith]. *)
Fixpoint startsWith (p s : jsstring) : bool :=
  match p, s with
  | [], _ => true
  | _ :: _, [] => false
  | a :: p', b :: s' => (a =? b)%N && startsWith p' s'
  end.

(** [String.prototype.indexOf]: offset of the first occurrence. *)
Fixpoint indexOf (p s : jsstring) : option nat :=
  if startsWith p s then Some 0
  else match s with
       | [] => None
       | _ :: r => option_map S (indexOf p r)
       end.

(** [String.prototype.includes]. *)
Definition includes (p s : jsstring) : bool :=
  match indexOf p s with Some _ => true | None => false end.

(** [s.replace(pat, rep)] with a string pattern: the first occurrence only.
    [rep] is taken literally (the source passes [''], which holds no [$]
    pattern). *)
Definition replace (s pat rep : jsstring) : jsstring :=
  match indexOf pat s with
  | Some i => firstn i s ++ rep ++ skipn (i + length pat) s
  | None => s
  end.

(** The scan of [split]: [cur] is the piece being built (reversed), [skip]
    counts the code units of a separator still to pass over. *)
Fixpoint split_go (sep s cur : jsstring) (skip : nat) : list jsstring :=
  match s with
  | [] => [rev cur]
  | c :: r =>
      match skip with
      | S k => split_go sep r cur k
      | O => if startsWith sep s
             then rev cur :: split_go sep r [] (length sep - 1)
             else split_go sep r (c :: cur) 0
      end
  end.

(** [String.prototype.split] with a string separator. *)
Definition split (s sep : jsstring) : list jsstring :=
  match sep with
  | [] => map (fun c => [c]) s
  | _ => split_go sep s [] 0
  end.

(* ------------------------------------------------------------------ *)
(** *** Regular expressions

    The fragment of ECMAScript patterns the source uses, with the
    backtracking order of the specification: a greedy quantifier tries the
    longest repetition first, a lazy one the shortest, and [exec] takes the
    first start offset at which the pattern matches. *)

Inductive regex : Type :=
| Chars (s : jsstring)                      (* literal characters *)
| Star (cls : char -> bool) (greedy : bool) (* [cls*] and [cls*?] *)
| Opt (c : char)                            (* [c?] *)
| Group (r : regex)                         (* [( r )], capture 1 *)
| Cat (r1 r2 : regex).

Section Matcher.
Variable R : Type.

Fixpoint star_greedy (cls : char -> bool) (s : jsstring)
         (k : jsstring -> option R) : option R :=
  match s with
  | c :: r =>
      if cls c
      then match star_greedy cls r k with
           | Some x => Some x
           | None => k s
           end
      else k s
  | [] => k []
  end.

Fixpoint star_lazy (cls : char -> bool) (s : jsstring)
         (k : jsstring -> option R) : option R :=
  match k s with
  | Some x => Some x
  | None =>
      match s with
      | c :: r => if cls c then star_lazy cls r k else None
      | [] => None
      end
  end.

(** [run r s g k]: match [r] at the head of [s], with [g] the capture so
    far; [k] is the rest of the pattern. *)
Fixpoint run (r : regex) (s : jsstring) (g : option jsstring)
         (k : jsstring -> option jsstring -> option R) : option R :=
  match r with
  | Chars t => if startsWith t s then k (skipn (length t) s) g else None
  | Star cls true => star_greedy cls s (fun s' => k s' g)
  | Star cls false => star_lazy cls s (fun s' => k s' g)
  | Opt c =>
      match s with
      | c' :: r' =>
          if (c' =? c)%N
          then match k r' g with
               | Some x => Some x
               | None => k s g
               end
          else k s g
      | [] => k s g
      end
  | Group r1 =>
      run r1 s g
          (fun s' _ => k s' (Some (firstn (length s - length s') s)))
  | Cat r1 r2 => run r1 s g (fun s' g' => run r2 s' g' k)
  end.
End Matcher.

(** The result array of a successful match: [index], [m[0]], [m[1]]. *)
Record MatchResult := mkMatch {
  index : nat;
  m0 : jsstring;
  m1 : option jsstring
}.

(** The end of the pattern: the match succeeds with the unread rest of the
    input and the capture. *)
Definition accept (s' : jsstring) (g : option jsstring)
  : option (jsstring * option jsstring) := Some (s', g).

(** [exec] tries the start offsets [i], [i + 1], ... in turn. *)
Fixpoint exec_at (r : regex) (i : nat) (s : jsstring) : option MatchResult :=
  match run r s None accept with
  | Some (s', g) => Some (mkMatch i (firstn (length s - length s') s) g)
  | None =>
      match s with
      | [] => None
      | _ :: s' => exec_at r (S i) s'
      end
  end.

(** [s.match(r)] for a pattern without the [g] flag. *)
Definition String_match (s : jsstring) (r : regex) : option MatchResult :=
  exec_at r 0 s.

(** [r.test(s)]. *)
Definition RegExp_test (r : regex) (s : jsstring) : bool :=
  match exec_at r 0 s with Some _ => true | None => false end.

End JS.

(* ================================================================== *)
(** ** [JSON.parse] *)
(* ================================================================== *)

Module JSON.
Import JS.

(** A parsed JSON value.  A number keeps its lexeme (its floating-point
    value is never inspected by the client); an object keeps its members in
    source order. *)
Inductive value : Type :=
| JNull
| JBool (b : bool)
| JNumber (lexeme : jsstring)
| JString (s : jsstring)
| JArray (items : list value)
| JObject (members : list (jsstring * value)).

(** [Ok] is a returned value, [SyntaxError] the exception of [JSON.parse];
    [OutOfFuel] belongs to the recursion below only and is shown never to
    be the answer of [parse]. *)
Inductive result (A : Type) : Type :=
| Ok (a : A)
| SyntaxError
| OutOfFuel.
Arguments Ok {A} a.
Arguments SyntaxError {A}.
Arguments OutOfFuel {A}.

(** JSON white space: tab, line feed, carriage return, space. *)
Definition is_ws (c : char) : bool :=
  ((c =? 9) || (c =? 10) || (c =? 13) || (c =? 32))%N.

Fixpoint skip_ws (s : jsstring) : jsstring :=
  match s with
  | c :: r => if is_ws c then skip_ws r else s
  | [] => []
  end.

Definition is_digit (c : char) : bool := ((48 <=? c) && (c <=? 57))%N.

Definition hex (c : char) : option N :=
  (if (48 <=? c) && (c <=? 57) then Some (c - 48)
   else if (97 <=? c) && (c <=? 102) then Some (c - 87)
   else if (65 <=? c) && (c <=? 70) then Some (c - 55)
   else None)%N.

Definition hex4 (a b c d : char) : option char :=
  match hex a, hex b, hex c, hex d with
  | Some x, Some y, Some z, Some w => Some (((x * 16 + y) * 16 + z) * 16 + w)%N
  | _, _, _, _ => None
  end.

(** The single-character escapes: quote, backslash, slash, b f n r t. *)
Definition escape (e : char) : option char :=
  (if e =? 34 then Some 34 else if e =? 92 then Some 92
   else if e =? 47 then Some 47 else if e =? 98 then Some 8
   else if e =? 102 then Some 12 else if e =? 110 then Some 10
   else if e =? 114 then Some 13 else if e =? 116 then Some 9
   else None)%N.

(** The characters of a string after its opening quote, up to and including
    the closing one. *)
Fixpoint string_body (s acc : jsstring) : option (jsstring * jsstring) :=
  match s with
  | [] => None
  | c :: r =>
      if (c =? 34)%N then Some (rev acc, r)
      else if (c =? 92)%N then
        match r with
        | [] => None
        | e :: r2 =>
            if (e =? 117)%N then
              match r2 with
              | h1 :: h2 :: h3 :: h4 :: r3 =>
                  match hex4 h1 h2 h3 h4 with
                  | Some u => string_body r3 (u :: acc)
                  | None => None
                  end
              | _ => None
              end
            else match escape e with
                 | Some u => string_body r2 (u :: acc)
                 | None => None
                 end
        end
      else if (c <? 32)%N then None
      else string_body r (c :: acc)
  end.

Fixpoint digits (s : jsstring) : jsstring * jsstring :=
  match s with
  | c :: r => if is_digit c
              then let (d, r') := digits r in (c :: d, r')
              else ([], s)
  | [] => ([], [])
  end.

(** A number: an optional minus sign; an integer part that is either a
    single zero or a non-zero digit followed by digits; an optional
    fraction (a dot and at least one digit); an optional exponent (e or E,
    an optional sign, at least one digit).  Returns the lexeme. *)
Definition number (s : jsstring) : option (jsstring * jsstring) :=
  let (sign, s1) :=
    match s with
    | c :: r => if (c =? 45)%N then ([c], r) else ([], s)
    | [] => ([], s)
    end in
  match s1 with
  | [] => None
  | c :: r =>
      let int :=
        if (c =? 48)%N then Some ([c], r)
        else if is_digit c then let (d, r') := digits r in Some (c :: d, r')
        else None in
      match int with
      | None => None
      | Some (ip, s2) =>
          let frac :=
            match s2 with
            | c2 :: r2 =>
                if (c2 =? 46)%N
                then let (d, r') := digits r2 in
                     match d with
                     | [] => None
                     | _ => Some (c2 :: d, r')
                     end
                else Some ([], s2)
            | [] => Some ([], s2)
            end in
          match frac with
          | None => None
          | Some (fp, s3) =>
              let exp :=
                match s3 with
                | c3 :: r3 =>
                    if ((c3 =? 101) || (c3 =? 69))%N
                    then
                      let (sg, r4) :=
                        match r3 with
                        | c4 :: r4 =>
                            if ((c4 =? 43) || (c4 =? 45))%N
                            then ([c4], r4) else ([], r3)
                        | [] => ([], r3)
                        end in
                      let (d, r') := digits r4 in
                      match d with
                      | [] => None
                      | _ => Some (c3 :: sg ++ d, r')
                      end
                    else Some ([], s3)
                | [] => Some ([], s3)
                end in
              match exp with
              | None => None
              | Some (ep, s4) => Some (sign ++ ip ++ fp ++ ep, s4)
              end
          end
      end
  end.

(** Recursive descent; every function expects its input with leading white
    space already skipped and returns the unread rest. *)
Fixpoint parse_value (n : nat) (s : jsstring) {struct n}
  : result (value * jsstring) :=
  match n with
  | O => OutOfFuel
  | S n' =>
      match s with
      | [] => SyntaxError
      | c :: r =>
          if (c =? 91)%N then
            match skip_ws r with
            | c1 :: r1 =>
                if (c1 =? 93)%N then Ok (JArray [], r1)
                else parse_elements n' (c1 :: r1) []
            | [] => SyntaxError
            end
          else if (c =? 123)%N then
            match skip_ws r with
            | c1 :: r1 =>
                if (c1 =? 125)%N then Ok (JObject [], r1)
                else parse_members n' (c1 :: r1) []
            | [] => SyntaxError
            end
          else if (c =? 34)%N then
            match string_body r [] with
            | Some (str, r') => Ok (JString str, r')
            | None => SyntaxError
            end
          else if startsWith (units "null") s then Ok (JNull, skipn 4 s)
          else if startsWith (units "true") s then Ok (JBool true, skipn 4 s)
          else if startsWith (units "false") s then Ok (JBool false, skipn 5 s)
          else match number s with
               | Some (lex, r') => Ok (JNumber lex, r')
               | None => SyntaxError
               end
      end
  end

with parse_elements (n : nat) (s : jsstring) (acc : list value) {struct n}
  : result (value * jsstring) :=
  match n with
  | O => OutOfFuel
  | S n' =>
      match parse_value n' s with
      | Ok (v, r) =>
          match skip_ws r with
          | c :: r' =>
              if (c =? 44)%N then parse_elements n' (skip_ws r') (v :: acc)
              else if (c =? 93)%N then Ok (JArray (rev (v :: acc)), r')
              else SyntaxError
          | [] => SyntaxError
          end
      | SyntaxError => SyntaxError
      | OutOfFuel => OutOfFuel
      end
  end

with parse_members (n : nat) (s : jsstring) (acc : list (jsstring * value))
                   {struct n} : result (value * jsstring) :=
  match n with
  | O => OutOfFuel
  | S n' =>
      match s with
      | [] => SyntaxError
      | c :: r =>
          if (c =? 34)%N then
            match string_body r [] with
            | None => SyntaxError
            | Some (key, r1) =>
                match skip_ws r1 with
                | [] => SyntaxError
                | c2 :: r2 =>
                    if (c2 =? 58)%N then
                      match parse_value n' (skip_ws r2) with
                      | Ok (v, r3) =>
                          match skip_ws r3 with
                          | c4 :: r4 =>
                              if (c4 =? 44)%N
                              then parse_members n' (skip_ws r4)
                                                 ((key, v) :: acc)
                              else if (c4 =? 125)%N
                              then Ok (JObject (rev ((key, v) :: acc)), r4)
                              else SyntaxError
                          | [] => SyntaxError
                          end
                      | SyntaxError => SyntaxError
                      | OutOfFuel => OutOfFuel
                      end
                    else SyntaxError
                end
            end
          else SyntaxError
      end
  end.

(** [JSON.parse(text)]: one value between optional white space. *)
Definition parse (text : jsstring) : result value :=
  match parse_value (2 * length text + 1) (skip_ws text) with
  | Ok (v, r) =>
      match skip_ws r with
      | [] => Ok v
      | _ :: _ => SyntaxError
      end
  | SyntaxError => SyntaxError
  | OutOfFuel => OutOfFuel
  end.

(** [Array.isArray]. *)
Definition isArray (v : value) : bool :=
  match v with JArray _ => true | _ => false end.

(** The elements of an array value. *)
Definition elements (v : value) : list value :=
  match v with JArray items => items | _ => [] end.

End JSON.

(* ================================================================== *)
(** ** Messages *)
(* ================================================================== *)

Module Types.
Import JS.

(** Modelled from the spec: [types.ts], which declares [Role] and
    [Message], is not among the sources.  The specification's data model
    gives a message as [{ id: string, role: USER|MODEL, content: text,
    timestamp: instant, isStreaming: bool }].  A user message is created
    without the [isStreaming] field; the field is only ever tested for
    truthiness, so the missing field reads as [false]. *)
Inductive Role : Type := USER | MODEL.

Definition Role_eqb (a b : Role) : bool :=
  match a, b with
  | USER, USER | MODEL, MODEL => true
  | _, _ => false
  end.

Record Message := mkMessage {
  id : jsstring;
  role : Role;
  content : jsstring;
  timestamp : Z;
  isStreaming : bool
}.

End Types.

(* ================================================================== *)
(** ** [MessageBubble]: suggestion extraction *)
(* ================================================================== *)

Module MessageBubble.
Import JS Types.

(** [/<<<SUGGESTIONS:\s*(\[[\s\S]*?\])\s*>>>/] *)
Definition suggestionRegex : regex :=
  Cat (Chars (units "<<<SUGGESTIONS:"))
 (Cat (Star is_space true)
 (Cat (Group (Cat (Chars (units "["))
             (Cat (Star any_char false)
                  (Chars (units "]")))))
 (Cat (Star is_space true)
      (Chars (units ">>>"))))).

(** [/<<<SUGGESTIONS:?/] *)
Definition partialRegex : regex :=
  Cat (Chars (units "<<<SUGGESTIONS")) (Opt 58%N).

Record Extraction := mkExtraction {
  displayContent : jsstring;
  suggestions : list JSON.value
}.

(** [JSON.parse(match[1])]; a capture that did not take part is
    [undefined], which [JSON.parse] refuses. *)
Definition parse_capture (g : option jsstring) : JSON.result JSON.value :=
  match g with
  | Some jsonStr => JSON.parse jsonStr
  | None => JSON.SyntaxError
  end.

(** The [useMemo] block computing [{ displayContent, suggestions }]. *)
Definition extract (message : Message) : Extraction :=
  let isUser := Role_eqb (role message) USER in
  if isUser then mkExtraction (content message) []
  else
    match String_match (content message) suggestionRegex with
    | Some mt =>
        match parse_capture (m1 mt) with
        | JSON.Ok parsed =>
            let cleanText := trim (replace (content message) (m0 mt) []) in
            mkExtraction cleanText
              (if JSON.isArray parsed then JSON.elements parsed else [])
        | _ => mkExtraction (content message) []
        end
    | None =>
        let cleanText := content message in
        let cleanText :=
          if isStreaming message
          then if RegExp_test partialRegex cleanText
               then trim (hd [] (split cleanText (units "<<<SUGGESTIONS")))
               else cleanText
          else cleanText in
        mkExtraction cleanText []
    end.

End MessageBubble.

(* ================================================================== *)
(** ** [GeminiService]: the model client adapter *)
(* ================================================================== *)

Module GeminiService.
Import JS Types.

(** One entry of the history handed to the SDK:
    [{ role, parts: [{ text }] }]. *)
Record Content := mkContent {
  c_role : Role;
  parts : list jsstring
}.

(** The chat session [ai.chats.create] returns, as far as the client
    determines it: the history it was seeded with.  The model name and the
    system instruction are the same constants for every session. *)
Record Chat := mkChat {
  history : option (list Content)
}.

(** The service object: its [chatSession] field, [null] at first. *)
Record Service := mkService {
  chatSession : option Chat
}.

(** [startChat(history?)]: a new session replaces the current one. *)
Definition startChat (history : option (list Content)) (svc : Service)
  : Service :=
  mkService (Some (mkChat history)).

(** A request issued on a session: [chatSession.sendMessageStream({message})]. *)
Record Request := mkRequest {
  session : Chat;
  message : jsstring
}.

(** [sendMessageStream(message)] up to its first [await]: a session is
    created when there is none, and the request goes to the current one.
    (After [startChat] the field is set, so the second test of the source
    cannot fail.) *)
Definition sendMessageStream (message : jsstring) (svc : Service)
  : Service * Request :=
  let svc :=
    match chatSession svc with
    | None => startChat None svc
    | Some _ => svc
    end in
  match chatSession svc with
  | Some chat => (svc, mkRequest chat message)
  | None => (svc, mkRequest (mkChat None) message)
  end.

(** What the SDK's response stream does next: deliver a chunk whose [text]
    may be missing, end, or fail. *)
Inductive SdkEvent : Type :=
| Chunk (text : option jsstring)
| Done
| Failure.

(** What the generator does with it. *)
Inductive Signal : Type :=
| Yield (text : jsstring)
| Skip
| Return
| Throw.

(** The body of the [for await] loop of [sendMessageStream] and its
    [catch]: only a truthy [text] is yielded, an error is thrown again. *)
Definition relay (e : SdkEvent) : Signal :=
  match e with
  | Chunk (Some (c :: t)) => Yield (c :: t)
  | Chunk _ => Skip
  | Done => Return
  | Failure => Throw
  end.

End GeminiService.

(* ================================================================== *)
(** ** [App]: the conversation state and its handlers *)
(* ================================================================== *)

(** The component is modelled as a state and the events that change it.
    An event handler runs against the state as it stands when the event
    happens (the component has rendered since the last change, so the
    [messages] and [isLoading] a handler closes over are the current ones),
    and the updates it queues are applied in order before the next event.
    A call of [handleSendMessage] runs up to its [for await] loop and is
    then suspended; it resumes each time its stream delivers something, and
    other events may come in between.  Scrolling, speech synthesis, the
    clipboard and [console.error] change none of this state and are left
    out. *)

Module App.
Import JS Types GeminiService.

(** JavaScript arrays, as the handlers use them. *)
Section Arrays.
Variable A : Type.

(** [a[i]]: [undefined] outside the array. *)
Definition Array_get (a : list A) (i : Z) : option A :=
  if (i <? 0)%Z then None else nth_error a (Z.to_nat i).

(** [a[i] = x] on a copy, for an index inside the array. *)
Fixpoint Array_set (a : list A) (i : nat) (x : A) : list A :=
  match a, i with
  | [], _ => []
  | _ :: r, O => x :: r
  | y :: r, S j => y :: Array_set r j x
  end.

(** [a.slice(start, end)]. *)
Definition Array_slice (a : list A) (start stop : Z) : list A :=
  let len := Z.of_nat (length a) in
  let rel i := if (i <? 0)%Z then Z.max (len + i) 0 else Z.min i len in
  let k := rel start in
  let final := rel stop in
  firstn (Z.to_nat (final - k)) (skipn (Z.to_nat k) a).

(** [a.findIndex(p)]: [-1] when no element satisfies [p]. *)
Fixpoint findIndex (p : A -> bool) (a : list A) : Z :=
  match a with
  | [] => (-1)%Z
  | x :: r =>
      if p x then 0%Z
      else let i := findIndex p r in
           if (i =? -1)%Z then (-1)%Z else (i + 1)%Z
  end.
End Arrays.

(** [n.toString()] for an integer: its decimal digits. *)
Definition toString (n : Z) : jsstring :=
  units (NilZero.string_of_int (Z.to_int n)).

(** The banner text set by [setError] and the text of a failed message. *)
Definition errorBanner : jsstring :=
  [25265; 27465; 65292; 36935; 21040; 20102; 19968; 20123; 38382; 39064;
   65292; 35831; 31245; 21518; 20877; 35797; 12290]%N.

Definition failureText : jsstring :=
  [9888; 65039; 32; 29983; 25104; 22833; 36133]%N.

(** The clock readings of one call of [handleSendMessage], in the order of
    the source: [Date.now()] for the model message's id, [Date.now()] for
    the user message's id, [new Date()] for each of the two timestamps. *)
Record Clock := mkClock {
  now_ai : Z;
  now_user : Z;
  date_user : Z;
  date_ai : Z
}.

(** A call of [handleSendMessage] suspended in its [for await] loop: the
    locals that survive the suspension, and the request its stream serves. *)
Record Activation := mkActivation {
  aiMessageId : jsstring;
  accumulatedText : jsstring;
  stream : Request
}.

(** The component state ([useState] and [useRef] cells), the service
    singleton, and the suspended sends. *)
Record State := mkState {
  messages : list Message;
  isLoading : bool;
  error : option jsstring;
  stopGeneration : bool;
  geminiService : Service;
  running : list Activation
}.

(** [setMessages(prev => f(prev))]. *)
Definition setMessages (f : list Message -> list Message) (st : State) :=
  mkState (f (messages st)) (isLoading st) (error st) (stopGeneration st)
          (geminiService st) (running st).

(** The state once the mount effect has run [geminiService.startChat()]. *)
Definition mounted : State :=
  mkState [] false None false (startChat None (mkService None)) [].

(** [handleStop]. *)
Definition handleStop (st : State) : State :=
  if isLoading st
  then mkState (messages st) (isLoading st) (error st) true
               (geminiService st) (running st)
  else st.

(** [handleSendMessage(text, isRegenerate)] up to the first suspension of
    its [for await] loop. *)
Definition handleSendMessage (text : jsstring) (isRegenerate : bool)
           (clk : Clock) (st : State) : State :=
  let aiMessageId := toString (now_ai clk + 1) in
  let userMessageId := toString (now_user clk) in
  let prev := messages st in
  let prev :=
    if negb isRegenerate
    then prev ++ [mkMessage userMessageId USER text (date_user clk) false]
    else prev in
  let aiPlaceholderMessage :=
    mkMessage aiMessageId MODEL [] (date_ai clk) true in
  let prev := prev ++ [aiPlaceholderMessage] in
  let (svc, req) := sendMessageStream text (geminiService st) in
  mkState prev true None false svc
          (running st ++ [mkActivation aiMessageId [] req]).

(** The updater run for each fragment: the last message takes the
    accumulated text when it carries the id of this send. *)
Definition setContent (aiMessageId accumulatedText : jsstring)
           (prev : list Message) : list Message :=
  let lastIndex := (Z.of_nat (length prev) - 1)%Z in
  match Array_get prev lastIndex with
  | Some m =>
      if ((lastIndex >=? 0)%Z && eqb_string (id m) aiMessageId)%bool
      then Array_set prev (Z.to_nat lastIndex)
             (mkMessage (id m) (role m) accumulatedText (timestamp m)
                        (isStreaming m))
      else prev
  | None => prev
  end.

(** The updater run when the loop is left: the first message with the id of
    this send stops streaming. *)
Definition clearStreaming (aiMessageId : jsstring) (prev : list Message)
  : list Message :=
  let lastIndex := findIndex (fun m => eqb_string (id m) aiMessageId) prev in
  if negb (lastIndex =? -1)%Z
  then match Array_get prev lastIndex with
       | Some m =>
           Array_set prev (Z.to_nat lastIndex)
             (mkMessage (id m) (role m) (content m) (timestamp m) false)
       | None => prev
       end
  else prev.

(** The updater of the [catch] block: [m.content || failureText]. *)
Definition markFailed (aiMessageId : jsstring) (prev : list Message)
  : list Message :=
  map (fun m =>
         if eqb_string (id m) aiMessageId
         then mkMessage (id m) (role m)
                (match content m with [] => failureText | _ :: _ => content m end)
                (timestamp m) false
         else m) prev.

(** The list without its element [k]. *)
Fixpoint remove_nth (A : Type) (l : list A) (k : nat) : list A :=
  match l, k with
  | [], _ => []
  | _ :: r, O => r
  | x :: r, S j => x :: remove_nth r j
  end.

(** The [finally] block; the activation [k] is over. *)
Definition settle (k : nat) (st : State) : State :=
  mkState (messages st) false (error st) false (geminiService st)
          (remove_nth (running st) k).

(** The suspended send [k] resumes with what its stream generator does:
    a fragment runs the loop body once (the stop flag is tested first, and
    a raised flag leaves the loop), the end of the stream leaves the loop,
    and both paths out of the loop run the final updater and the [finally]
    block; an error runs the [catch] block and the [finally] block. *)
Definition resume (k : nat) (sig : Signal) (st : State) : State :=
  match nth_error (running st) k with
  | None => st
  | Some a =>
      match sig with
      | Skip => st
      | Yield chunk =>
          if stopGeneration st
          then settle k (setMessages (clearStreaming (aiMessageId a)) st)
          else
            let accumulatedText := accumulatedText a ++ chunk in
            let st := setMessages (setContent (aiMessageId a) accumulatedText) st in
            mkState (messages st) (isLoading st) (error st)
                    (stopGeneration st) (geminiService st)
                    (Array_set (running st) k
                       (mkActivation (aiMessageId a) accumulatedText (stream a)))
      | Return =>
          settle k (setMessages (clearStreaming (aiMessageId a)) st)
      | Throw =>
          let st := mkState (messages st) (isLoading st) (Some errorBanner)
                            (stopGeneration st) (geminiService st)
                            (running st) in
          settle k (setMessages (markFailed (aiMessageId a)) st)
      end
  end.

(** The [historyForSdk] mapping of both handlers. *)
Definition historyForSdk (ms : list Message) : list Content :=
  map (fun m => mkContent (role m) [content m]) ms.

(** [geminiService.startChat(historyForSdk)]. *)
Definition restartChat (h : list Content) (st : State) : State :=
  mkState (messages st) (isLoading st) (error st) (stopGeneration st)
          (startChat (Some h) (geminiService st)) (running st).

(** [handleRegenerate]. *)
Definition handleRegenerate (clk : Clock) (st : State) : State :=
  let messages := messages st in
  let len := Z.of_nat (length messages) in
  if ((len =? 0)%Z || isLoading st)%bool then st
  else
    let target :=
      match Array_get messages (len - 1) with
      | Some lastMsg =>
          if Role_eqb (role lastMsg) MODEL then
            match Array_get messages (len - 2) with
            | Some prevMsg =>
                if Role_eqb (role prevMsg) USER
                then ((len - 2)%Z, content prevMsg)
                else ((-1)%Z, [])
            | None => ((-1)%Z, [])
            end
          else ((-1)%Z, [])
      | None => ((-1)%Z, [])
      end in
    let (lastUserMsgIndex, lastUserMsgContent) := target in
    if negb (lastUserMsgIndex =? -1)%Z then
      let newHistoryMessages := Array_slice messages 0 lastUserMsgIndex in
      let st := restartChat (historyForSdk newHistoryMessages) st in
      let st := setMessages (fun _ => Array_slice messages 0 (len - 1)) st in
      handleSendMessage lastUserMsgContent true clk st
    else st.

(** [handleEdit(msgId, newContent)]. *)
Definition handleEdit (msgId newContent : jsstring) (clk : Clock)
           (st : State) : State :=
  let messages := messages st in
  let index := findIndex (fun m => eqb_string (id m) msgId) messages in
  if (index =? -1)%Z then st
  else
    match Array_get messages index with
    | None => st
    | Some m =>
        if negb (Role_eqb (role m) USER) then st
        else
          let previousMessages := Array_slice messages 0 index in
          let st := restartChat (historyForSdk previousMessages) st in
          let st := setMessages (fun _ => previousMessages) st in
          handleSendMessage newContent false clk st
    end.

(** [handleClearChat]; [confirmed] is the answer to [window.confirm]. *)
Definition handleClearChat (confirmed : bool) (st : State) : State :=
  if confirmed
  then mkState [] (isLoading st) None (stopGeneration st)
               (startChat None (geminiService st)) (running st)
  else st.

(** [handleSubmit] of [ChatInput]: while loading the button stops the
    stream, otherwise a non-blank input is sent. *)
Definition handleSubmit (input : jsstring) (clk : Clock) (st : State)
  : State :=
  if isLoading st then handleStop st
  else match trim input with
       | [] => st
       | _ :: _ => handleSendMessage input false clk st
       end.

(** A click on chip [j] under message [i]: chips are rendered under every
    model message whose extraction yields suggestions, and a click sends
    the suggestion's text.  [onSuggestionClick] and [handleSendMessage]
    declare the argument a [string], and so does [Message.content]; a click
    on an array element that is not a string hands over a value outside
    those types, which [State] cannot hold: such a click is not described
    (the state is returned as it is), and statements about runs leave it
    out through [Guarded.stringChip]. *)
Definition suggestionClick (i j : nat) (clk : Clock) (st : State) : State :=
  match nth_error (messages st) i with
  | Some m =>
      match nth_error (MessageBubble.suggestions (MessageBubble.extract m)) j with
      | Some (JSON.JString text) =>
          if Role_eqb (role m) USER then st
          else handleSendMessage text false clk st
      | _ => st
      end
  | None => st
  end.

(** [handleSaveEdit] of the bubble of message [i]: the edit affordance is
    offered on user messages that are not streaming; an unchanged text is
    not submitted. *)
Definition saveEdit (i : nat) (editContent : jsstring) (clk : Clock)
           (st : State) : State :=
  match nth_error (messages st) i with
  | Some m =>
      if (Role_eqb (role m) USER && negb (isStreaming m))%bool
      then if eqb_string (trim editContent) (content m) then st
           else handleEdit (id m) editContent clk st
      else st
  | None => st
  end.

(** A click on the regenerate button, offered on the last message when it
    is a model message that is not streaming. *)
Definition regenerateClick (clk : Clock) (st : State) : State :=
  match Array_get (messages st) (Z.of_nat (length (messages st)) - 1) with
  | Some m =>
      if (Role_eqb (role m) MODEL && negb (isStreaming m))%bool
      then handleRegenerate clk st
      else st
  | None => st
  end.

(** The texts of the two buttons of the empty state. *)
Definition starterFact : jsstring :=
  [32473; 25105; 35762; 20010; 26377; 36259; 30340; 31185; 23398; 20107;
   23454]%N.

Definition starterSnake : jsstring :=
  [29992; 32; 80; 121; 116; 104; 111; 110; 32; 20889; 19968; 20010; 36138;
   21507; 34503; 28216; 25103]%N.

(** A click on one of the two buttons of the empty state, which is rendered
    while [messages.length === 0]: the button's text is sent. *)
Definition starterClick (second : bool) (clk : Clock) (st : State) : State :=
  match messages st with
  | [] =>
      handleSendMessage (if second then starterSnake else starterFact)
                        false clk st
  | _ :: _ => st
  end.

(** What can happen to a mounted component. *)
Inductive Event : Type :=
| Submit (input : jsstring) (clk : Clock)
| SuggestionClick (i j : nat) (clk : Clock)
| SaveEdit (i : nat) (editContent : jsstring) (clk : Clock)
| RegenerateClick (clk : Clock)
| ClearClick (confirmed : bool)
| Stream (k : nat) (e : SdkEvent)
| StarterClick (second : bool) (clk : Clock).

Definition step (st : State) (ev : Event) : State :=
  match ev with
  | Submit input clk => handleSubmit input clk st
  | SuggestionClick i j clk => suggestionClick i j clk st
  | SaveEdit i editContent clk => saveEdit i editContent clk st
  | RegenerateClick clk => regenerateClick clk st
  | ClearClick confirmed => handleClearChat confirmed st
  | Stream k e => resume k (relay e) st
  | StarterClick second clk => starterClick second clk st
  end.

Definition run_events (evs : list Event) (st : State) : State :=
  fold_left step evs st.

(** The two messages [handleSendMessage] creates. *)
Definition userMessage (text : jsstring) (clk : Clock) : Message :=
  mkMessage (toString (now_user clk)) USER text (date_user clk) false.

Definition placeholder (clk : Clock) (content : jsstring) (streaming : bool)
  : Message :=
  mkMessage (toString (now_ai clk + 1)) MODEL content (date_ai clk) streaming.

(** No message of [ms] carries the id [i]. *)
Definition unused (i : jsstring) (ms : list Message) : bool :=
  forallb (fun m => negb (eqb_string (id m) i)) ms.

(** The suspended send [k] receives the fragments [chunks] in order. *)
Definition fragments (k : nat) (chunks : list jsstring) (st : State) : State :=
  fold_left (fun st chunk => resume k (Yield chunk) st) chunks st.

(** The number of messages that are streaming. *)
Definition streamingCount (ms : list Message) : nat :=
  length (filter isStreaming ms).



End App.

(* ================================================================== *)
(** ** The marker block, in the words of the specification *)
(* ================================================================== *)

Module Marker.
Import JS.

Definition openToken : jsstring := units "<<<SUGGESTIONS:".
Definition partialToken : jsstring := units "<<<SUGGESTIONS".
Definition closeToken : jsstring := units ">>>".

Definition lbracket : char := 91%N.
Definition rbracket : char := 93%N.
Definition dquote : char := 34%N.

(** A JSON string literal with the given (escape-free) characters. *)
Definition quoted (s : jsstring) : jsstring := dquote :: s ++ [dquote].

(** [s] begins with optional white space followed by the closing
    delimiter. *)
Fixpoint closes (s : jsstring) : bool :=
  match s with
  | c :: r => if is_space c then closes r else startsWith closeToken s
  | [] => false
  end.

(** Some closing bracket of [s] is followed, inside [s], by optional white
    space and the closing delimiter. *)
Fixpoint closes_early (s : jsstring) : bool :=
  match s with
  | c :: r => ((c =? rbracket)%N && closes r) || closes_early r
  | [] => false
  end.

(** The block [<<<SUGGESTIONS: [...]>>>] around the array literal
    [lbracket :: body ++ [rbracket]]. *)
Definition block (ws1 body ws2 : jsstring) : jsstring :=
  openToken ++ ws1 ++ (lbracket :: body ++ [rbracket]) ++ ws2 ++ closeToken.

End Marker.

(* ================================================================== *)
(** ** The session mirror, in the words of the specification *)
(* ================================================================== *)

Module Mirror.
Import JS Types GeminiService App.




End Mirror.

(* ================================================================== *)
(** ** The history of the session *)
(* ================================================================== *)

Module Session.
Import JS Types GeminiService App Mirror.

(** Modelled from the spec: the history of the vendor's chat session, whose
    code is not in the sources.  The spec's session holds its own history
    of role and text pairs: the history it was seeded with, followed by the
    turns sent on it, a turn being one user message plus the model's
    response to it.  A turn is recorded when its stream has run to its end.
    What a session keeps of a turn whose stream failed or was closed is not
    said: [Unfinished] lists what it may keep. *)
Inductive Unfinished : Type :=
| KeepsNothing
| KeepsUserMessage
| KeepsReceived.

Definition finishedTurn (a : Activation) : list Content :=
  [mkContent USER [message (stream a)]; mkContent MODEL [accumulatedText a]].

(** [last] is the fragment that arrived when the stream was closed. *)
Definition unfinishedTurn (p : Unfinished) (a : Activation) (last : jsstring)
  : list Content :=
  match p with
  | KeepsNothing => []
  | KeepsUserMessage => [mkContent USER [message (stream a)]]
  | KeepsReceived =>
      [mkContent USER [message (stream a)];
       mkContent MODEL [accumulatedText a ++ last]]
  end.

(** The component together with what its sessions have recorded: which
    session the service holds (sessions are numbered as [startChat] creates
    them), the turns recorded on that session since it was created, and for
    each suspended send, in the order of [running], the session it was sent
    on. *)
Record Tracked := mkTracked {
  component : State;
  sessionNo : nat;
  turns : list Content;
  sentOn : list nat
}.


(** The event starts a send, or ends one: every handler that starts a send
    appends its activation to [running], and only the end of a send removes
    one. *)
Definition starts (st : State) (ev : Event) : bool :=
  length (running st) <? length (running (step st ev)).

Definition settles (st : State) (ev : Event) : bool :=
  length (running (step st ev)) <? length (running st).

(** The event calls [startChat]: a confirmed clear; an edit or a regenerate
    that takes effect; a send while the service holds no session. *)
Definition restarts (st : State) (ev : Event) : bool :=
  match ev with
  | ClearClick confirmed => confirmed
  | SaveEdit _ _ _ | RegenerateClick _ => starts st ev
  | Submit _ _ | SuggestionClick _ _ _ | StarterClick _ _ =>
      starts st ev
      && match chatSession (geminiService st) with
         | None => true
         | Some _ => false
         end
  | Stream _ _ => false
  end.

(** What the session the service holds records when the event reaches a
    send that was sent on it. *)
Definition recorded (p : Unfinished) (t : Tracked) (ev : Event)
  : list Content :=
  match ev with
  | Stream k e =>
      match nth_error (running (component t)) k, nth_error (sentOn t) k with
      | Some a, Some s =>
          if s =? sessionNo t then
            match relay e with
            | Return => finishedTurn a
            | Throw => unfinishedTurn p a []
            | Yield chunk =>
                if stopGeneration (component t)
                then unfinishedTurn p a chunk
                else []
            | Skip => []
            end
          else []
      | _, _ => []
      end
  | _ => []
  end.

Definition track (p : Unfinished) (t : Tracked) (ev : Event) : Tracked :=
  let st := component t in
  let no := if restarts st ev then S (sessionNo t) else sessionNo t in
  mkTracked (step st ev) no
    (if restarts st ev then [] else turns t ++ recorded p t ev)
    (match ev with
     | Stream k _ =>
         if settles st ev then remove_nth (sentOn t) k else sentOn t
     | _ => if starts st ev then sentOn t ++ [no] else sentOn t
     end).

Definition trackRun (p : Unfinished) (evs : list Event) (t : Tracked)
  : Tracked :=
  fold_left (track p) evs t.



End Session.

(* ================================================================== *)
(** ** Runs that respect the loading flag *)
(* ================================================================== *)

Module Guarded.
Import JS Types GeminiService App.

(** The ids a send at [clk] would create are new: the model id is carried
    by no message of the list and differs from the user id. *)
Definition freshClock (clk : Clock) (st : State) : bool :=
  unused (toString (now_ai clk + 1)) (messages st)
  && negb (eqb_string (toString (now_user clk)) (toString (now_ai clk + 1))).

(** The chip [j] under message [i], if there is one, is a string, the
    type [onSuggestionClick] declares for its argument. *)
Definition stringChip (st : State) (i j : nat) : bool :=
  match nth_error (messages st) i with
  | Some m =>
      match nth_error (MessageBubble.suggestions (MessageBubble.extract m)) j with
      | Some (JSON.JString _) | None => true
      | Some _ => false
      end
  | None => true
  end.

(** The event may happen in [st]: a chip or a button of the empty state is
    clicked, or an edit saved, only while no send is outstanding (the three
    paths that do not test the flag themselves), a clicked chip is a
    string, and every send reads a clock that gives new ids. *)
Definition admissible (st : State) (ev : Event) : bool :=
  match ev with
  | SuggestionClick i j clk =>
      negb (isLoading st) && freshClock clk st && stringChip st i j
  | SaveEdit _ _ clk | StarterClick _ clk =>
      negb (isLoading st) && freshClock clk st
  | Submit _ clk | RegenerateClick clk => freshClock clk st
  | ClearClick _ | Stream _ _ => true
  end.

Fixpoint admissibleRun (st : State) (evs : list Event) : bool :=
  match evs with
  | [] => true
  | ev :: rest => admissible st ev && admissibleRun (step st ev) rest
  end.

(** What holds of every state of such a run: either nothing is in flight
    and no message is streaming; or one send is in flight and the list was
    cleared; or one send is in flight and its placeholder, the only message
    that carries its id, is the last message and the only one that may be
    streaming. *)
Inductive Inv (st : State) : Prop :=
| Idle :
    isLoading st = false -> running st = [] ->
    streamingCount (messages st) = 0 -> Inv st
| Cleared (a : Activation) :
    isLoading st = true -> running st = [a] -> messages st = [] -> Inv st
| Busy (a : Activation) (pre : list Message) (m : Message) :
    isLoading st = true -> running st = [a] ->
    messages st = pre ++ [m] -> id m = aiMessageId a ->
    unused (aiMessageId a) pre = true -> streamingCount pre = 0 -> Inv st.

End Guarded.

(* ================================================================== *)
(** ** Sample inputs *)
(* ================================================================== *)

Module Samples.
Import JS Types Marker GeminiService App.

(** [Sure. <<<SUGGESTIONS: ["More", "Why?"]>>>] *)
Definition two_chips_body : jsstring :=
  quoted (units "More") ++ units ", " ++ quoted (units "Why?").

(** [Sure. <<<SUGGESTIONS: ["a]>>>b"]>>>]: the closing delimiter occurs
    inside a suggestion. *)
Definition tricky_body : jsstring := quoted (units "a]>>>b").
Definition tricky_array : jsstring := lbracket :: tricky_body ++ [rbracket].
Definition tricky_text : jsstring :=
  units "Sure. " ++ openToken ++ units " " ++ tricky_array ++ closeToken.

(** [Hi <<<SUGGESTIONS: []: a block still being streamed. *)
Definition partial_text : jsstring := units "Hi <<<SUGGESTIONS: [".

(** [Hi <<<SUGGESTIONS: [oops]>>>] and [Hi <<<SUGGESTIONS: 42>>>]. *)
Definition oops_text : jsstring := units "Hi <<<SUGGESTIONS: [oops]>>>".
Definition number_span : jsstring := units " 42".
Definition number_text : jsstring :=
  units "Hi " ++ openToken ++ number_span ++ closeToken.

(** A clock that reads [t] throughout one call of [handleSendMessage]. *)
Definition at_time (t : Z) : Clock := mkClock t t t t.

(** A first exchange whose answer offers two chips. *)
Definition first_exchange : list Event :=
  [ Submit (units "hi") (at_time 100);
    Stream 0 (Chunk (Some (units "Sure. " ++ block (units " ") two_chips_body [])));
    Stream 0 Done ].

(** A second question is being answered when the chip [More] under the
    first answer is clicked. *)
Definition chip_during_stream : list Event :=
  first_exchange
  ++ [ Submit (units "again") (at_time 200);
       SuggestionClick 1 0 (at_time 300) ].

(** The first user message is edited while its answer is streaming. *)
Definition streaming_answer : list Event :=
  [ Submit (units "hi") (at_time 100);
    Stream 0 (Chunk (Some (units "Hel"))) ].

(** Two completed turns, and the state they leave. *)
Definition two_exchanges : list Event :=
  [ Submit (units "hi") (at_time 100);
    Stream 0 (Chunk (Some (units "yo")));
    Stream 0 Done;
    Submit (units "why") (at_time 200);
    Stream 0 (Chunk (Some (units "because")));
    Stream 0 Done ].

Definition sU1 : Message := mkMessage (units "100") USER (units "hi") 100 false.
Definition sM1 : Message := mkMessage (units "101") MODEL (units "yo") 100 false.
Definition sU2 : Message := mkMessage (units "200") USER (units "why") 200 false.
Definition sM2 : Message :=
  mkMessage (units "201") MODEL (units "because") 200 false.

Definition two_turns : State :=
  mkState [sU1; sM1; sU2; sM2] false None false
          (startChat None (mkService None)) [].


(** A send is cleared away, a button of the empty state is clicked while
    it is still in flight, the first stream ends, and a question is
    submitted. *)
Definition starter_during_send : list Event :=
  [ Submit (units "hi") (at_time 100);
    ClearClick true;
    StarterClick false (at_time 200);
    Stream 0 Done;
    Submit (units "why") (at_time 300) ].

(** A button of the empty state starts the conversation, the answer offers
    two chips, and the first chip is clicked once the answer is complete. *)
Definition starter_exchange : list Event :=
  [ StarterClick false (at_time 100);
    Stream 0 (Chunk (Some (units "Sure. " ++ Marker.block (units " ")
                                               two_chips_body [])));
    Stream 0 Done;
    SuggestionClick 1 0 (at_time 200) ].

(** One completed exchange. *)
Definition one_exchange : list Event :=
  [ Submit (units "hi") (at_time 100);
    Stream 0 (Chunk (Some (units "yo")));
    Stream 0 Done ].

End Samples.

(* ================================================================== *)
(** ** [ChatInput]: the input box *)
(* ================================================================== *)

Module ChatInput.
Import JS.

(** What [handleSubmit] asks of its parent: [onStop()], [onSend(message)],
    or nothing. *)
Inductive Intent : Type :=
| Stop
| Send (message : jsstring)
| Nothing.

(** [handleSubmit]: the new value of [input] and the callback invoked. *)
Definition handleSubmit (input : jsstring) (isLoading : bool)
  : jsstring * Intent :=
  if isLoading then (input, Stop)
  else match trim input with
       | [] => (input, Nothing)
       | _ :: _ => ([], Send input)
       end.

(** [handleKeyDown]: Enter without Shift submits. *)
Definition handleKeyDown (key : jsstring) (shiftKey : bool)
           (input : jsstring) (isLoading : bool) : jsstring * Intent :=
  if (eqb_string key (units "Enter") && negb shiftKey)%bool
  then handleSubmit input isLoading
  else (input, Nothing).

(** The [disabled] attribute of the submit button:
    [!input.trim() && !isLoading]. *)
Definition submitDisabled (input : jsstring) (isLoading : bool) : bool :=
  (match trim input with [] => true | _ :: _ => false end && negb isLoading)%bool.

(** One entry of [event.results]: its [isFinal] flag and the transcript of
    its first alternative. *)
Record SpeechResult := mkSpeechResult {
  isFinal : bool;
  transcript : jsstring
}.

(** The [for] loop of [recognition.onresult] from index [i], with [n]
    iterations to go. *)
Fixpoint finalTranscriptFrom (results : list SpeechResult) (i n : nat)
         (finalTranscript : jsstring) : jsstring :=
  match n with
  | O => finalTranscript
  | S n' =>
      match nth_error results i with
      | Some r =>
          finalTranscriptFrom results (S i) n'
            (if isFinal r then finalTranscript ++ transcript r
             else finalTranscript)
      | None => finalTranscript
      end
  end.

(** [recognition.onresult]: the new value of [input]. *)
Definition onresult (resultIndex : nat) (results : list SpeechResult)
           (input : jsstring) : jsstring :=
  let finalTranscript :=
    finalTranscriptFrom results resultIndex
                        (length results - resultIndex) [] in
  match finalTranscript with
  | [] => input
  | _ :: _ => input ++ finalTranscript
  end.

End ChatInput.

(* ================================================================== *)
(** ** [MessageBubble]: the edit box *)
(* ================================================================== *)

Module EditBox.
Import JS.

(** The line feed, ['\n']. *)
Definition newline : jsstring := [10%N].

(** The [rows] of the edit [textarea]:
    [Math.min(10, Math.max(2, editContent.split('\n').length))]. *)
Definition rows (editContent : jsstring) : Z :=
  Z.min 10 (Z.max 2 (Z.of_nat (length (split editContent newline)))).

End EditBox.

(* ================================================================== *)
(** ** Streams and clocks, for the statements below *)
(* ================================================================== *)

Module Streams.
Import JS Types GeminiService App.

(** The text of an SDK chunk; a chunk without text contributes nothing. *)
Definition chunkText (text : option jsstring) : jsstring :=
  match text with Some t => t | None => [] end.

(** The send [k] receives the SDK chunks [texts] in order. *)
Definition deliver (k : nat) (texts : list (option jsstring)) (st : State)
  : State :=
  run_events (map (fun t => Stream k (Chunk t)) texts) st.

(** The event comes from a stream. *)
Definition isStream (ev : Event) : bool :=
  match ev with Stream _ _ => true | _ => false end.

(** The intent of the input box carried out by [App]. *)
Definition perform (i : ChatInput.Intent) (clk : Clock) (st : State) : State :=
  match i with
  | ChatInput.Stop => handleStop st
  | ChatInput.Send message => handleSendMessage message false clk st
  | ChatInput.Nothing => st
  end.

(** A clock whose second reading comes one millisecond after the first. *)
Definition ticking (t : Z) : Clock := mkClock t (t + 1) (t + 1) (t + 1).

(** A model message whose text ends with a block of two suggestions. *)
Definition chips_message : Message :=
  mkMessage (units "101") MODEL
    (units "Sure. " ++ Marker.block (units " ") Samples.two_chips_body []) 0
    false.

(** Speech results: one already handled, an interim one, two final ones. *)
Definition heard : list ChatInput.SpeechResult :=
  [ ChatInput.mkSpeechResult true (units "old ");
    ChatInput.mkSpeechResult false (units "hel");
    ChatInput.mkSpeechResult true (units "hello ");
    ChatInput.mkSpeechResult true (units "world") ].


(** The service holds a session. *)
Definition hasSession (st : App.State) : Prop :=
  GeminiService.chatSession (App.geminiService st) <> None.

End Streams.

(* ================================================================== *)
(** ** Strings and patterns *)
(* ================================================================== *)

Import JS Types MessageBubble GeminiService App Marker Mirror Session Guarded
       Samples Streams.

Section StringFacts.

Lemma startsWith_app (p s : jsstring) : startsWith p (p ++ s) = true.
Proof.
  induction p as [|a p IH]; simpl; [reflexivity|].
  now rewrite N.eqb_refl.
Qed.

Lemma startsWith_split (p s : jsstring) :
  startsWith p s = true -> s = p ++ skipn (length p) s.
Proof.
  revert s; induction p as [|a p IH]; intros [|b s]; simpl; try easy.
  intros H. apply andb_true_iff in H as [Hab Hp].
  apply N.eqb_eq in Hab. subst b. f_equal. now apply IH.
Qed.

Lemma startsWith_trans (p q s : jsstring) :
  startsWith p q = true -> startsWith q s = true -> startsWith p s = true.
Proof.
  revert q s; induction p as [|a p IH]; intros [|b q] [|c s]; simpl; try easy.
  intros H1 H2.
  apply andb_true_iff in H1 as [Hab Hp], H2 as [Hbc Hq].
  apply N.eqb_eq in Hab, Hbc. subst. rewrite N.eqb_refl. simpl. eauto.
Qed.

Lemma trimStart_spaces (ws s : jsstring) :
  forallb is_space ws = true ->
  trimStart (ws ++ s) = trimStart s.
Proof.
  induction ws as [|c ws IH]; simpl; [reflexivity|].
  intros H. apply andb_true_iff in H as [Hc Hws]. rewrite Hc. auto.
Qed.

Lemma any_char_true (c : char) : any_char c = true.
Proof. unfold any_char. apply orb_negb_r. Qed.

(** The first occurrence of a longer pattern is where the first occurrence
    of its prefix is, when it occurs there. *)
Lemma indexOf_refine (p q s : jsstring) (n : nat) :
  startsWith p q = true ->
  indexOf p s = Some n ->
  startsWith q (skipn n s) = true ->
  indexOf q s = Some n.
Proof.
  intros Hpq. revert n.
  induction s as [|c s IH]; intros n; simpl.
  - destruct (startsWith p []) eqn:Hp; [|discriminate].
    intros [= <-]. simpl. now intros ->.
  - destruct (startsWith p (c :: s)) eqn:Hp.
    + intros [= <-]. simpl. now intros ->.
    + destruct (indexOf p s) as [m|] eqn:Hm; [|discriminate].
      simpl. intros [= <-]. simpl. intros Hq.
      destruct (startsWith q (c :: s)) eqn:Hq0.
      * now rewrite (startsWith_trans _ _ _ Hpq Hq0) in Hp.
      * now rewrite (IH m eq_refl Hq).
Qed.

Lemma indexOf_bound (p s : jsstring) (n : nat) :
  indexOf p s = Some n -> startsWith p (skipn n s) = true /\ n <= length s.
Proof.
  revert n; induction s as [|c s IH]; intros n; simpl.
  - destruct (startsWith p []) eqn:Hp; [|discriminate].
    intros [= <-]. auto.
  - destruct (startsWith p (c :: s)) eqn:Hp.
    + intros [= <-]. split; [assumption|lia].
    + destruct (indexOf p s) as [m|]; [|discriminate].
      simpl. intros [= <-]. destruct (IH m eq_refl). split; [assumption|lia].
Qed.

End StringFacts.

Local Arguments N.eqb : simpl nomatch.
Local Arguments N.leb : simpl nomatch.

Section RegexFacts.
Variable R : Type.
Implicit Type k : jsstring -> option R.

Lemma star_greedy_spaces k s :
  (forall c r, is_space c = true -> k (c :: r) = None) ->
  star_greedy is_space s k = k (trimStart s).
Proof.
  intros Hk. induction s as [|c s IH]; simpl; [reflexivity|].
  destruct (is_space c) eqn:Hc; [|reflexivity].
  rewrite IH. destruct (k (trimStart s)); [reflexivity|].
  now apply Hk.
Qed.

Lemma star_lazy_skip k mid s :
  (forall a b, mid = a ++ b -> b <> [] -> k (b ++ s) = None) ->
  star_lazy any_char (mid ++ s) k = star_lazy any_char s k.
Proof.
  induction mid as [|c mid IH]; intros Hk; [reflexivity|].
  assert (H0 := Hk [] (c :: mid) eq_refl ltac:(discriminate)).
  simpl in *. rewrite H0.
  rewrite any_char_true. apply IH.
  intros a b -> Hb. apply (Hk (c :: a) b eq_refl Hb).
Qed.

Lemma star_lazy_here k s x : k s = Some x -> star_lazy any_char s k = Some x.
Proof. intros H. destruct s; simpl; now rewrite H. Qed.

End RegexFacts.

Lemma closes_trimStart s : closes s = startsWith closeToken (trimStart s).
Proof.
  induction s as [|c s IH]; simpl; [reflexivity|].
  destruct (is_space c) eqn:Hc; [assumption|reflexivity].
Qed.

Lemma closes_inside x tail :
  closes (x ++ rbracket :: tail) = closes (x ++ [rbracket]).
Proof.
  induction x as [|c x IH]; [reflexivity|].
  simpl. destruct (is_space c); [assumption|].
  destruct x as [|d [|e x]]; simpl; try reflexivity;
    now rewrite ?andb_false_r.
Qed.

Lemma skipn_length_app (A : Type) (a b : list A) : skipn (length a) (a ++ b) = b.
Proof. induction a; simpl; auto. Qed.

Lemma firstn_length_app (A : Type) (a b : list A) :
  firstn (length (a ++ b) - length b) (a ++ b) = a.
Proof.
  rewrite length_app, Nat.add_sub.
  induction a; simpl; [now destruct b|now f_equal].
Qed.

Lemma space_not (c d : char) :
  is_space c = true -> is_space d = false -> (d =? c)%N = false.
Proof.
  intros Hc Hd. destruct (N.eqb_spec d c); [subst; congruence|reflexivity].
Qed.

Section RunFacts.
Variable R : Type.
Implicit Type k : jsstring -> option jsstring -> option R.

Lemma run_Chars_app t s g k : run (Chars t) (t ++ s) g k = k s g.
Proof. simpl. now rewrite startsWith_app, skipn_length_app. Qed.

Lemma run_Chars_fail t s g k :
  startsWith t s = false -> run (Chars t) s g k = None.
Proof. simpl. now intros ->. Qed.

Lemma run_Cat r1 r2 s g k :
  run (Cat r1 r2) s g k = run r1 s g (fun s' g' => run r2 s' g' k).
Proof. reflexivity. Qed.

Lemma run_spaces s g k :
  (forall c r, is_space c = true -> k (c :: r) g = None) ->
  run (Star is_space true) s g k = k (trimStart s) g.
Proof. intros H. simpl. now apply star_greedy_spaces. Qed.

End RunFacts.

Lemma run_tail s g :
  run (Cat (Star is_space true) (Chars closeToken)) s g accept
  = if closes s then Some (skipn 3 (trimStart s), g) else None.
Proof.
  rewrite run_Cat, run_spaces.
  - rewrite closes_trimStart. reflexivity.
  - intros c r Hc. apply run_Chars_fail. simpl.
    now rewrite (@space_not c 62%N Hc eq_refl).
Qed.

Lemma closes_tail ws post :
  forallb is_space ws = true ->
  closes (ws ++ closeToken ++ post) = true
  /\ skipn 3 (trimStart (ws ++ closeToken ++ post)) = post.
Proof.
  intros H. rewrite closes_trimStart, trimStart_spaces by assumption.
  split; reflexivity.
Qed.

Lemma closes_early_inner a b :
  closes_early (a ++ rbracket :: b ++ [rbracket]) = false ->
  closes (b ++ [rbracket]) = false.
Proof.
  induction a as [|c a IH]; simpl.
  - intros H. apply orb_false_iff in H as [H _]. exact H.
  - intros H. apply orb_false_iff in H as [_ H]. auto.
Qed.

Lemma run_Group (R : Type) r1 s g (k : jsstring -> option jsstring -> option R) :
  run (Group r1) s g k
  = run r1 s g (fun s' _ => k s' (Some (firstn (length s - length s') s))).
Proof. reflexivity. Qed.

Lemma run_lazy (R : Type) cls s g (k : jsstring -> option jsstring -> option R) :
  run (Star cls false) s g k = star_lazy cls s (fun s' => k s' g).
Proof. reflexivity. Qed.

Lemma run_block ws1 body ws2 post :
  forallb is_space ws1 = true ->
  forallb is_space ws2 = true ->
  closes_early (lbracket :: body ++ [rbracket]) = false ->
  run suggestionRegex (block ws1 body ws2 ++ post) None accept
  = Some (post, Some (lbracket :: body ++ [rbracket])).
Proof.
  intros H1 H2 He.
  unfold suggestionRegex, block. fold openToken closeToken.
  set (arr := lbracket :: body ++ [rbracket]) in *.
  rewrite <- !app_assoc.
  set (tail := ws2 ++ closeToken ++ post).
  rewrite run_Cat, (run_Chars_app openToken).
  rewrite run_Cat, run_spaces.
  2:{ intros c r Hc. simpl. now rewrite (@space_not c 91%N Hc eq_refl). }
  rewrite trimStart_spaces by assumption.
  change (trimStart (arr ++ tail)) with (arr ++ tail).
  rewrite run_Cat, run_Group, run_Cat.
  replace (arr ++ tail) with (units "[" ++ (body ++ rbracket :: tail)) at 1
    by (unfold arr; simpl; now rewrite <- app_assoc).
  rewrite (run_Chars_app (units "[")), run_Cat, run_lazy.
  rewrite star_lazy_skip.
  - apply star_lazy_here.
    change (rbracket :: tail) with (units "]" ++ tail).
    rewrite (run_Chars_app (units "]")).
    replace (firstn (length (arr ++ tail) - length tail) (arr ++ tail)) with arr
      by (symmetry; apply firstn_length_app).
    fold accept. rewrite run_tail.
    unfold tail.
    destruct (closes_tail ws2 post H2) as [-> ->]. reflexivity.
  - intros a [|c b] -> Hb; [congruence|].
    change ((c :: b) ++ rbracket :: tail) with (c :: (b ++ rbracket :: tail)).
    destruct (N.eqb_spec rbracket c) as [<-|Hne].
    + change (rbracket :: b ++ rbracket :: tail) with (units "]" ++ (b ++ rbracket :: tail)).
      rewrite (run_Chars_app (units "]")). fold accept. rewrite run_tail.
      rewrite closes_inside.
      unfold arr in He. rewrite <- app_assoc in He.
      change (lbracket :: a ++ (rbracket :: b) ++ [rbracket])
        with ((lbracket :: a) ++ rbracket :: b ++ [rbracket]) in He.
      now rewrite (closes_early_inner _ _ He).
    + apply run_Chars_fail. simpl.
      apply N.eqb_neq in Hne. unfold rbracket in Hne. now rewrite Hne.
Qed.

Lemma exec_at_skip t r' s : forall i n,
  indexOf t s = Some n ->
  exec_at (Cat (Chars t) r') i s = exec_at (Cat (Chars t) r') (i + n) (skipn n s).
Proof.
  induction s as [|c s IH]; intros i n; simpl indexOf.
  - destruct (startsWith t []); [|discriminate].
    intros [= <-]. now rewrite Nat.add_0_r.
  - destruct (startsWith t (c :: s)) eqn:Ht.
    + intros [= <-]. now rewrite Nat.add_0_r.
    + destruct (indexOf t s) as [m|] eqn:Hm; [|discriminate].
      simpl. intros [= <-].
      rewrite Ht. rewrite (IH (S i) m eq_refl).
      now rewrite Nat.add_succ_r.
Qed.

Lemma exec_at_none t r' s : forall i,
  indexOf t s = None -> exec_at (Cat (Chars t) r') i s = None.
Proof.
  induction s as [|c s IH]; intros i; simpl indexOf.
  - destruct (startsWith t []) eqn:Ht; [discriminate|].
    intros _. simpl. now rewrite Ht.
  - destruct (startsWith t (c :: s)) eqn:Ht; [discriminate|].
    destruct (indexOf t s) as [m|] eqn:Hm; [discriminate|].
    intros _. simpl. rewrite Ht. now apply IH.
Qed.

Lemma indexOf_none_mono p q s :
  startsWith p q = true -> indexOf p s = None -> indexOf q s = None.
Proof.
  intros Hpq. induction s as [|c s IH]; simpl.
  - destruct (startsWith p []) eqn:Hp; [discriminate|].
    destruct (startsWith q []) eqn:Hq; [|reflexivity].
    now rewrite (startsWith_trans _ _ _ Hpq Hq) in Hp.
  - destruct (startsWith p (c :: s)) eqn:Hp; [discriminate|].
    destruct (indexOf p s); [discriminate|]. intros _.
    destruct (startsWith q (c :: s)) eqn:Hq.
    + now rewrite (startsWith_trans _ _ _ Hpq Hq) in Hp.
    + now rewrite IH.
Qed.

Lemma exec_at_eq r i s :
  exec_at r i s
  = match run r s None accept with
    | Some (s', g) => Some (mkMatch i (firstn (length s - length s') s) g)
    | None => match s with
              | [] => None
              | _ :: s' => exec_at r (S i) s'
              end
    end.
Proof. destruct s; reflexivity. Qed.

Lemma match_block pre ws1 body ws2 post :
  indexOf openToken (pre ++ block ws1 body ws2 ++ post) = Some (length pre) ->
  forallb is_space ws1 = true ->
  forallb is_space ws2 = true ->
  closes_early (lbracket :: body ++ [rbracket]) = false ->
  String_match (pre ++ block ws1 body ws2 ++ post) suggestionRegex
  = Some (mkMatch (length pre) (block ws1 body ws2)
                  (Some (lbracket :: body ++ [rbracket]))).
Proof.
  intros Hi H1 H2 He. unfold String_match.
  unfold suggestionRegex at 1. fold openToken.
  rewrite (@exec_at_skip _ _ _ 0 _ Hi), skipn_length_app.
  change (Cat (Chars openToken) _) with suggestionRegex.
  rewrite exec_at_eq, run_block by assumption.
  now rewrite firstn_length_app.
Qed.

Lemma firstn_exact (A : Type) (l r : list A) : firstn (length l) (l ++ r) = l.
Proof. induction l; simpl; [reflexivity|now f_equal]. Qed.

Lemma replace_block pre blk post :
  indexOf blk (pre ++ blk ++ post) = Some (length pre) ->
  replace (pre ++ blk ++ post) blk [] = pre ++ post.
Proof.
  intros H. unfold replace. rewrite H.
  rewrite firstn_exact. f_equal.
  induction pre as [|c pre IH]; simpl; [apply skipn_length_app|].
  clear H IH. induction pre; simpl; [apply skipn_length_app|assumption].
Qed.

Lemma extract_block pre ws1 body ws2 post items i ts streaming :
  let arr := lbracket :: body ++ [rbracket] in
  let text := pre ++ block ws1 body ws2 ++ post in
  indexOf openToken text = Some (length pre) ->
  forallb is_space ws1 = true ->
  forallb is_space ws2 = true ->
  closes_early arr = false ->
  JSON.parse arr = JSON.Ok (JSON.JArray items) ->
  extract (mkMessage i MODEL text ts streaming)
  = mkExtraction (trim (pre ++ post)) items.
Proof.
  intros arr text Hi H1 H2 He Hp. unfold extract. simpl.
  fold text. unfold text at 1. rewrite (match_block _ _ _ _ _ Hi H1 H2 He).
  simpl. fold arr. rewrite Hp. unfold text.
  rewrite replace_block; [reflexivity|].
  apply (indexOf_refine openToken); [reflexivity|exact Hi|].
  rewrite skipn_length_app. apply startsWith_app.
Qed.

Lemma no_token_no_match text :
  includes partialToken text = false ->
  String_match text suggestionRegex = None
  /\ RegExp_test partialRegex text = false.
Proof.
  unfold includes. destruct (indexOf partialToken text) eqn:Hi; [discriminate|].
  intros _. split.
  - apply exec_at_none. now apply (indexOf_none_mono partialToken).
  - unfold RegExp_test, partialRegex. fold partialToken.
    now rewrite exec_at_none.
Qed.

Lemma split_go_hd sep s : forall cur n,
  indexOf sep s = Some n ->
  hd [] (split_go sep s cur 0) = rev cur ++ firstn n s.
Proof.
  induction s as [|c s IH]; intros cur n; simpl indexOf.
  - destruct (startsWith sep []); [|discriminate].
    intros [= <-]. simpl. now rewrite app_nil_r.
  - destruct (startsWith sep (c :: s)) eqn:Hs.
    + intros [= <-]. simpl. rewrite Hs. simpl. now rewrite app_nil_r.
    + destruct (indexOf sep s) as [m|] eqn:Hm; [|discriminate].
      simpl. intros [= <-]. rewrite Hs.
      rewrite (IH (c :: cur) m eq_refl). simpl. now rewrite <- app_assoc.
Qed.

Lemma test_partial text n :
  indexOf partialToken text = Some n -> RegExp_test partialRegex text = true.
Proof.
  intros Hi. unfold RegExp_test, partialRegex. fold partialToken.
  rewrite (@exec_at_skip _ _ _ 0 _ Hi), exec_at_eq.
  destruct (indexOf_bound _ _ Hi) as [Hs _].
  pose proof (startsWith_split _ _ Hs) as Hu.
  set (v := skipn (length partialToken) (skipn n text)) in Hu.
  clearbody v. rewrite Hu.
  rewrite run_Cat, (run_Chars_app partialToken).
  simpl run. unfold accept.
  destruct v as [|c r]; [reflexivity|].
  destruct (c =? 58)%N; reflexivity.
Qed.

Section Suffix.
Variable R : Type.

Lemma star_greedy_inv cls s (k : list N -> option R) x :
  star_greedy cls s k = Some x ->
  exists s', length s' <= length s /\ k s' = Some x.
Proof.
  induction s as [|c s IH]; simpl.
  - intros H. exists []. auto.
  - destruct (cls c).
    + destruct (star_greedy cls s k) eqn:Hg.
      * intros [= ->]. destruct (IH eq_refl) as (s' & Hl & Hk).
        exists s'. split; [lia|assumption].
      * intros H. exists (c :: s). auto.
    + intros H. exists (c :: s). auto.
Qed.

Lemma star_lazy_inv cls s (k : list N -> option R) x :
  star_lazy cls s k = Some x ->
  exists s', length s' <= length s /\ k s' = Some x.
Proof.
  induction s as [|c s IH]; simpl.
  - destruct (k []) eqn:Hk; [|discriminate].
    intros [= ->]. exists []. auto.
  - destruct (k (c :: s)) eqn:Hk.
    + intros [= ->]. exists (c :: s). auto.
    + destruct (cls c); [|discriminate].
      intros H. destruct (IH H) as (s' & Hl & Hk').
      exists s'. split; [simpl; lia|assumption].
Qed.
End Suffix.

Lemma run_capture s s' g :
  run suggestionRegex s None accept = Some (s', g) ->
  exists r, g = Some (lbracket :: r).
Proof.
  unfold suggestionRegex. rewrite run_Cat.
  destruct (startsWith (units "<<<SUGGESTIONS:") s) eqn:Ho;
    [|now rewrite run_Chars_fail].
  rewrite (startsWith_split _ _ Ho).
  rewrite (run_Chars_app (units "<<<SUGGESTIONS:")).
  set (s1 := skipn _ s). clearbody s1. clear Ho.
  rewrite run_Cat. intros H.
  apply star_greedy_inv in H as (s2 & _ & H).
  rewrite run_Cat, run_Group, run_Cat in H.
  destruct (startsWith (units "[") s2) eqn:Hb;
    [|now rewrite run_Chars_fail in H].
  pose proof (startsWith_split _ _ Hb) as Hs2.
  set (s3 := skipn _ s2) in Hs2. clearbody s3.
  rewrite Hs2 in H at 1. rewrite (run_Chars_app (units "[")) in H.
  rewrite run_Cat in H.
  apply star_lazy_inv in H as (s4 & Hl4 & H).
  destruct (startsWith (units "]") s4) eqn:Hc;
    [|now rewrite run_Chars_fail in H].
  pose proof (startsWith_split _ _ Hc) as Hs4.
  set (s5 := skipn _ s4) in Hs4. clearbody s5.
  cbv beta in H. rewrite Hs4, (run_Chars_app (units "]")) in H.
  fold closeToken accept in H. rewrite run_tail in H.
  destruct (closes _); [|discriminate].
  injection H as _ <-.
  assert (Hl : length s5 <= length s3).
  { rewrite Hs4, length_app in Hl4. lia. }
  set (m := length s5) in *. clearbody m.
  rewrite Hs2. simpl length. simpl app.
  replace (S (length s3) - m) with (S (length s3 - m)) by lia.
  simpl. eauto.
Qed.

Lemma exec_at_inv r s : forall i mt,
  exec_at r i s = Some mt ->
  exists t s', run r t None accept = Some (s', m1 mt).
Proof.
  induction s as [|c s IH]; intros i mt; rewrite exec_at_eq.
  - destruct (run r [] None accept) as [[s' g]|] eqn:Hr; [|discriminate].
    intros [= <-]. eauto.
  - destruct (run r (c :: s) None accept) as [[s' g]|] eqn:Hr.
    + intros [= <-]. eauto.
    + apply IH.
Qed.

Lemma match_capture text mt :
  String_match text suggestionRegex = Some mt ->
  exists r, m1 mt = Some (lbracket :: r).
Proof.
  intros H. apply exec_at_inv in H as (t & s' & H).
  now apply run_capture in H.
Qed.

(** *** JSON *)

Local Arguments N.ltb : simpl nomatch.

Lemma skip_ws_length s : length (JSON.skip_ws s) <= length s.
Proof.
  induction s as [|c s IH]; simpl; [lia|].
  destruct (JSON.is_ws c); simpl; lia.
Qed.

Lemma string_body_length s : forall acc str r,
  JSON.string_body s acc = Some (str, r) -> length r < length s.
Proof.
  induction s as [s IH] using (well_founded_induction
                                 (Wf_nat.well_founded_ltof _ (@length N))).
  unfold Wf_nat.ltof in IH.
  intros acc str r. destruct s as [|c s]; simpl; [discriminate|].
  destruct (c =? 34)%N; [intros [= _ <-]; lia|].
  destruct (c =? 92)%N.
  - destruct s as [|e s]; [discriminate|].
    destruct (e =? 117)%N.
    + destruct s as [|h1 [|h2 [|h3 [|h4 s]]]]; try discriminate.
      destruct (JSON.hex4 h1 h2 h3 h4); [|discriminate].
      intros H. apply IH in H; simpl in *; lia.
    + destruct (JSON.escape e); [|discriminate].
      intros H. apply IH in H; simpl in *; lia.
  - destruct (c <? 32)%N; [discriminate|].
    intros H. apply IH in H; simpl in *; lia.
Qed.

Lemma digits_length s d r :
  JSON.digits s = (d, r) -> length r <= length s.
Proof.
  revert d r. induction s as [|c s IH]; simpl; intros d r.
  - intros [= _ <-]. simpl. lia.
  - destruct (JSON.is_digit c).
    + destruct (JSON.digits s) as [d' r'] eqn:Hd. intros [= _ <-].
      specialize (IH _ _ eq_refl). lia.
    + intros [= _ <-]. simpl. lia.
Qed.

Lemma number_length s lex r :
  JSON.number s = Some (lex, r) -> length r < length s.
Proof.
  unfold JSON.number.
  assert (Hsign : forall s1 sign,
    (match s with
     | c :: r0 => if (c =? 45)%N then ([c], r0) else ([], s)
     | [] => ([], s)
     end) = (sign, s1) -> length s1 <= length s).
  { intros s1 sign. destruct s as [|c s0]; [intros [= _ <-]; lia|].
    destruct (c =? 45)%N; intros [= _ <-]; simpl; lia. }
  destruct (match s with
            | c :: r0 => if (c =? 45)%N then ([c], r0) else ([], s)
            | [] => ([], s)
            end) as [sign s1] eqn:Hs.
  specialize (Hsign _ _ eq_refl).
  destruct s1 as [|c r1]; [discriminate|].
  assert (Hint : forall ip s2,
    (if (c =? 48)%N then Some ([c], r1)
     else if JSON.is_digit c
          then let (d, r') := JSON.digits r1 in Some (c :: d, r')
          else None) = Some (ip, s2) -> length s2 <= length r1).
  { intros ip s2. destruct (c =? 48)%N; [intros [= _ <-]; lia|].
    destruct (JSON.is_digit c); [|discriminate].
    destruct (JSON.digits r1) as [d r'] eqn:Hd. intros [= _ <-].
    now apply digits_length in Hd. }
  destruct (if (c =? 48)%N then Some ([c], r1)
            else if JSON.is_digit c
                 then let (d, r') := JSON.digits r1 in Some (c :: d, r')
                 else None) as [[ip s2]|] eqn:Hi; [|discriminate].
  specialize (Hint _ _ eq_refl).
  assert (Hfrac : forall fp s3,
    (match s2 with
     | c2 :: r2 =>
         if (c2 =? 46)%N
         then let (d, r') := JSON.digits r2 in
              match d with [] => None | _ :: _ => Some (c2 :: d, r') end
         else Some ([], s2)
     | [] => Some ([], s2)
     end) = Some (fp, s3) -> length s3 <= length s2).
  { intros fp s3. destruct s2 as [|c2 r2]; [intros [= _ <-]; lia|].
    destruct (c2 =? 46)%N; [|intros [= _ <-]; lia].
    destruct (JSON.digits r2) as [d r'] eqn:Hd.
    destruct d; [discriminate|]. intros [= _ <-].
    apply digits_length in Hd. simpl. lia. }
  destruct (match s2 with
            | c2 :: r2 =>
                if (c2 =? 46)%N
                then let (d, r') := JSON.digits r2 in
                     match d with [] => None | _ :: _ => Some (c2 :: d, r') end
                else Some ([], s2)
            | [] => Some ([], s2)
            end) as [[fp s3]|] eqn:Hf; [|discriminate].
  specialize (Hfrac _ _ eq_refl).
  destruct s3 as [|c3 r3].
  - intros [= _ <-]. simpl in *. lia.
  - destruct ((c3 =? 101) || (c3 =? 69))%N.
    + destruct (match r3 with
                | c4 :: r4 =>
                    if ((c4 =? 43) || (c4 =? 45))%N
                    then ([c4], r4) else ([], r3)
                | [] => ([], r3)
                end) as [sg r4] eqn:Hsg.
      assert (length r4 <= length r3).
      { destruct r3 as [|c4 r3']; [injection Hsg as _ <-; lia|].
        destruct ((c4 =? 43) || (c4 =? 45))%N;
          injection Hsg as _ <-; simpl; lia. }
      destruct (JSON.digits r4) as [d r'] eqn:Hd.
      destruct d; [discriminate|]. intros [= _ <-].
      apply digits_length in Hd. simpl in *. lia.
    + intros [= _ <-]. simpl in *. lia.
Qed.

Lemma literal_length t s :
  t <> [] -> startsWith t s = true -> length (skipn (length t) s) < length s.
Proof.
  intros Ht Hs. rewrite (startsWith_split _ _ Hs) at 2.
  rewrite length_app. destruct t; [congruence|simpl; lia].
Qed.

(** What is returned is shorter than what was read. *)
Lemma parse_consumes n :
  (forall s v r, JSON.parse_value n s = JSON.Ok (v, r) -> length r < length s)
  /\ (forall s acc v r,
         JSON.parse_elements n s acc = JSON.Ok (v, r) -> length r < length s)
  /\ (forall s acc v r,
         JSON.parse_members n s acc = JSON.Ok (v, r) -> length r < length s).
Proof.
  induction n as [|n (IHv & IHe & IHm)]; [repeat split; discriminate|].
  repeat apply conj.
  - intros s v r. cbn [JSON.parse_value]. destruct s as [|c s]; [discriminate|].
    destruct (c =? 91)%N.
    { pose proof (skip_ws_length s) as Hw.
      destruct (JSON.skip_ws s) as [|c1 r1]; [discriminate|].
      destruct (c1 =? 93)%N; [intros [= _ <-]; simpl in *; lia|].
      intros H. apply IHe in H. simpl in *. lia. }
    destruct (c =? 123)%N.
    { pose proof (skip_ws_length s) as Hw.
      destruct (JSON.skip_ws s) as [|c1 r1]; [discriminate|].
      destruct (c1 =? 125)%N; [intros [= _ <-]; simpl in *; lia|].
      intros H. apply IHm in H. simpl in *. lia. }
    destruct (c =? 34)%N.
    { destruct (JSON.string_body s []) as [[str r']|] eqn:Hb; [|discriminate].
      intros [= _ <-]. apply string_body_length in Hb. simpl. lia. }
    destruct (startsWith (units "null") (c :: s)) eqn:H1.
    { intros [= _ <-]. apply (@literal_length (units "null") (c :: s)); [discriminate|assumption]. }
    destruct (startsWith (units "true") (c :: s)) eqn:H2.
    { intros [= _ <-]. apply (@literal_length (units "true") (c :: s)); [discriminate|assumption]. }
    destruct (startsWith (units "false") (c :: s)) eqn:H3.
    { intros [= _ <-]. apply (@literal_length (units "false") (c :: s)); [discriminate|assumption]. }
    destruct (JSON.number (c :: s)) as [[lex r']|] eqn:Hn; [|discriminate].
    intros [= _ <-]. now apply number_length in Hn.
  - intros s acc v r. cbn [JSON.parse_elements].
    destruct (JSON.parse_value n s) as [[v1 r1]| |] eqn:Hv; try discriminate.
    apply IHv in Hv. pose proof (skip_ws_length r1) as Hw.
    destruct (JSON.skip_ws r1) as [|c r2]; [discriminate|].
    destruct (c =? 44)%N.
    { intros H. apply IHe in H. pose proof (skip_ws_length r2).
      simpl in *. lia. }
    destruct (c =? 93)%N; [|discriminate].
    intros [= _ <-]. simpl in *. lia.
  - intros s acc v r. cbn [JSON.parse_members]. destruct s as [|c s]; [discriminate|].
    destruct (c =? 34)%N; [|discriminate].
    destruct (JSON.string_body s []) as [[key r1]|] eqn:Hb; [|discriminate].
    apply string_body_length in Hb. pose proof (skip_ws_length r1) as Hw1.
    destruct (JSON.skip_ws r1) as [|c2 r2]; [discriminate|].
    destruct (c2 =? 58)%N; [|discriminate].
    pose proof (skip_ws_length r2) as Hw2.
    destruct (JSON.parse_value n (JSON.skip_ws r2)) as [[v1 r3]| |] eqn:Hv;
      try discriminate.
    apply IHv in Hv. pose proof (skip_ws_length r3) as Hw3.
    destruct (JSON.skip_ws r3) as [|c4 r4]; [discriminate|].
    destruct (c4 =? 44)%N.
    { intros H. apply IHm in H. pose proof (skip_ws_length r4).
      simpl in *. lia. }
    destruct (c4 =? 125)%N; [|discriminate].
    intros [= _ <-]. simpl in *. lia.
Qed.

(** With fuel above twice the length of the input the recursion never
    runs dry. *)
Lemma parse_fuel n :
  (forall s, 2 * length s + 1 <= n -> JSON.parse_value n s <> JSON.OutOfFuel)
  /\ (forall s acc, 2 * length s + 2 <= n ->
                    JSON.parse_elements n s acc <> JSON.OutOfFuel)
  /\ (forall s acc, 2 * length s + 2 <= n ->
                    JSON.parse_members n s acc <> JSON.OutOfFuel).
Proof.
  induction n as [|n (IHv & IHe & IHm)]; [repeat split; intros; lia|].
  repeat apply conj.
  - intros s Hn. cbn [JSON.parse_value]. destruct s as [|c s]; [discriminate|].
    simpl in Hn.
    destruct (c =? 91)%N.
    { pose proof (skip_ws_length s) as Hw.
      destruct (JSON.skip_ws s) as [|c1 r1]; [discriminate|].
      destruct (c1 =? 93)%N; [discriminate|].
      apply IHe. simpl in *. lia. }
    destruct (c =? 123)%N.
    { pose proof (skip_ws_length s) as Hw.
      destruct (JSON.skip_ws s) as [|c1 r1]; [discriminate|].
      destruct (c1 =? 125)%N; [discriminate|].
      apply IHm. simpl in *. lia. }
    destruct (c =? 34)%N.
    { destruct (JSON.string_body s []) as [[str r']|]; discriminate. }
    destruct (startsWith (units "null") (c :: s)); [discriminate|].
    destruct (startsWith (units "true") (c :: s)); [discriminate|].
    destruct (startsWith (units "false") (c :: s)); [discriminate|].
    destruct (JSON.number (c :: s)) as [[lex r']|]; discriminate.
  - intros s acc Hn. cbn [JSON.parse_elements].
    destruct (JSON.parse_value n s) as [[v1 r1]| |] eqn:Hv;
      [|discriminate|now apply IHv in Hv; [|lia]].
    apply (proj1 (parse_consumes n)) in Hv.
    pose proof (skip_ws_length r1) as Hw.
    destruct (JSON.skip_ws r1) as [|c r2]; [discriminate|].
    destruct (c =? 44)%N.
    { apply IHe. pose proof (skip_ws_length r2). simpl in *. lia. }
    destruct (c =? 93)%N; discriminate.
  - intros s acc Hn. cbn [JSON.parse_members]. destruct s as [|c s]; [discriminate|].
    destruct (c =? 34)%N; [|discriminate].
    destruct (JSON.string_body s []) as [[key r1]|] eqn:Hb; [|discriminate].
    apply string_body_length in Hb. pose proof (skip_ws_length r1) as Hw1.
    destruct (JSON.skip_ws r1) as [|c2 r2]; [discriminate|].
    destruct (c2 =? 58)%N; [|discriminate].
    pose proof (skip_ws_length r2) as Hw2.
    destruct (JSON.parse_value n (JSON.skip_ws r2)) as [[v1 r3]| |] eqn:Hv;
      [|discriminate|now apply IHv in Hv; [|simpl in *; lia]].
    apply (proj1 (parse_consumes n)) in Hv.
    pose proof (skip_ws_length r3) as Hw3.
    destruct (JSON.skip_ws r3) as [|c4 r4]; [discriminate|].
    destruct (c4 =? 44)%N.
    { apply IHm. pose proof (skip_ws_length r4). simpl in *. lia. }
    destruct (c4 =? 125)%N; discriminate.
Qed.

(** [JSON.parse] returns a value or throws. *)
Lemma parse_total text :
  (exists v, JSON.parse text = JSON.Ok v)
  \/ JSON.parse text = JSON.SyntaxError.
Proof.
  unfold JSON.parse.
  pose proof (proj1 (parse_fuel (2 * length text + 1)) (JSON.skip_ws text)) as H.
  pose proof (skip_ws_length text) as Hw.
  destruct (JSON.parse_value _ _) as [[v r]| |].
  - destruct (JSON.skip_ws r); eauto.
  - now right.
  - exfalso. apply H; [lia|reflexivity].
Qed.


Lemma parse_elements_array n : forall s acc v r,
  JSON.parse_elements n s acc = JSON.Ok (v, r) ->
  exists items, v = JSON.JArray items.
Proof.
  induction n as [|n IH]; intros s acc v r; simpl; [discriminate|].
  destruct (JSON.parse_value n s) as [[v1 r1]| |]; try discriminate.
  destruct (JSON.skip_ws r1) as [|c r2]; [discriminate|].
  destruct (c =? 44)%N; [apply IH|].
  destruct (c =? 93)%N; [|discriminate].
  intros [= <- _]. eauto.
Qed.

Lemma parse_bracket r v :
  JSON.parse (lbracket :: r) = JSON.Ok v ->
  exists items, v = JSON.JArray items.
Proof.
  unfold JSON.parse. rewrite Nat.add_1_r.
  set (n := 2 * length _). clearbody n.
  change (JSON.skip_ws (lbracket :: r)) with (lbracket :: r).
  destruct (JSON.parse_value _ _) as [[v1 r1]| |] eqn:Hp; try discriminate.
  destruct (JSON.skip_ws r1); [|discriminate]. intros [= <-].
  simpl in Hp.
  destruct (JSON.skip_ws r) as [|c1 r2]; [discriminate|].
  destruct (c1 =? 93)%N.
  - injection Hp as <- _. eauto.
  - now apply parse_elements_array in Hp.
Qed.

(* ================================================================== *)
(** ** Suggestion extraction: the claims *)
(* ================================================================== *)

Lemma extract_user i text ts streaming :
  extract (mkMessage i USER text ts streaming) = mkExtraction text [].
Proof. reflexivity. Qed.

(** C1 (amended).  Let a model message's text end with a marker block
    [<<<SUGGESTIONS: [...]>>>] whose opening token is the first one in the
    text, whose array literal parses as a JSON array, and in which no
    closing bracket before the last is followed by optional white space and
    [>>>].  Then extraction returns the text before the block, trimmed, as
    display text, and the parsed array as suggestions.  For every text that
    does not contain [<<<SUGGESTIONS], extraction returns the text unchanged
    and no suggestions. *)
Theorem C1_extract_trailing_block :
  (forall pre ws1 body ws2 items i ts streaming,
      indexOf openToken (pre ++ block ws1 body ws2) = Some (length pre) ->
      forallb is_space ws1 = true ->
      forallb is_space ws2 = true ->
      closes_early (lbracket :: body ++ [rbracket]) = false ->
      JSON.parse (lbracket :: body ++ [rbracket])
        = JSON.Ok (JSON.JArray items) ->
      extract (mkMessage i MODEL (pre ++ block ws1 body ws2) ts streaming)
        = mkExtraction (trim pre) items)
  /\
  (forall text i r ts streaming,
      includes partialToken text = false ->
      extract (mkMessage i r text ts streaming) = mkExtraction text []).
Proof.
  split.
  - intros pre ws1 body ws2 items i ts streaming Hi H1 H2 He Hp.
    pose proof (@extract_block pre ws1 body ws2 [] items i ts streaming) as H.
    cbv zeta in H. rewrite !app_nil_r in H. now apply H.
  - intros text i r ts streaming Hn.
    destruct r; [apply extract_user|].
    destruct (no_token_no_match _ Hn) as [Hm Ht].
    unfold extract. simpl. rewrite Hm, Ht. now destruct streaming.
Qed.

Lemma C1_extract_trailing_block_witness :
  extract (mkMessage (units "101") MODEL
             (units "Sure. " ++ block (units " ") two_chips_body []) 0 false)
  = mkExtraction (trim (units "Sure. "))
      [JSON.JString (units "More"); JSON.JString (units "Why?")]
  /\ extract (mkMessage (units "101") MODEL (units "Plain answer.") 0 true)
     = mkExtraction (units "Plain answer.") [].
Proof.
  split.
  - apply (proj1 C1_extract_trailing_block); vm_compute; reflexivity.
  - apply (proj2 C1_extract_trailing_block); vm_compute; reflexivity.
Defined.

(** C1 fails as stated: [tricky_text] ends with a well-formed block whose
    literal parses as a one-element array, and extraction returns the text
    unchanged with no suggestions. *)
Lemma C1_counterexample :
  tricky_text = units "Sure. " ++ block (units " ") tricky_body []
  /\ JSON.parse tricky_array
     = JSON.Ok (JSON.JArray [JSON.JString (units "a]>>>b")])
  /\ extract (mkMessage (units "101") MODEL tricky_text 0 false)
     = mkExtraction tricky_text []
  /\ extract (mkMessage (units "101") MODEL tricky_text 0 false)
     <> mkExtraction (trim (units "Sure. "))
          [JSON.JString (units "a]>>>b")].
Proof.
  repeat split; try (vm_compute; reflexivity).
  vm_compute. discriminate.
Qed.

(** C6 (amended).  For a streaming model message in which the marker
    pattern does not match and whose text contains the opening token
    [<<<SUGGESTIONS], first at offset [off], the display text is the text
    truncated at [off] and then trimmed; there are no suggestions. *)
Theorem C6_streaming_partial_marker i ts text off :
  String_match text suggestionRegex = None ->
  indexOf partialToken text = Some off ->
  extract (mkMessage i MODEL text ts true)
  = mkExtraction (trim (firstn off text)) [].
Proof.
  intros Hm Hi. unfold extract. simpl. rewrite Hm, (test_partial _ Hi).
  unfold split. change (units "<<<SUGGESTIONS") with partialToken.
  change partialToken with (60%N :: skipn 1 partialToken) at 1.
  cbv iota. change (60%N :: skipn 1 partialToken) with partialToken.
  now rewrite (split_go_hd _ _ [] Hi).
Qed.

Lemma C6_streaming_partial_marker_witness :
  extract (mkMessage (units "101") MODEL partial_text 0 true)
  = mkExtraction (trim (firstn 3 partial_text)) [].
Proof.
  apply C6_streaming_partial_marker; vm_compute; reflexivity.
Defined.

(** C6 fails as stated: the display text of the streaming [partial_text]
    is not the text truncated at the token's offset; the space before the
    token is gone as well. *)
Lemma C6_counterexample :
  String_match partial_text suggestionRegex = None
  /\ indexOf partialToken partial_text = Some 3
  /\ displayContent (extract (mkMessage (units "101") MODEL partial_text 0 true))
     = units "Hi"
  /\ displayContent (extract (mkMessage (units "101") MODEL partial_text 0 true))
     <> firstn 3 partial_text.
Proof.
  repeat split; try (vm_compute; reflexivity).
  vm_compute. discriminate.
Qed.

(** C7 (amended).  When the marker pattern matches a model message's text
    and [JSON.parse] refuses the captured span, extraction returns the text
    unchanged and no suggestions; a captured span that parses is always an
    array.  When the pattern does not match and the message is not
    streaming, extraction also returns the text unchanged and no
    suggestions. *)
Theorem C7_malformed_block i ts text streaming :
  (forall mt, String_match text suggestionRegex = Some mt ->
      (forall v, parse_capture (m1 mt) = JSON.Ok v -> JSON.isArray v = true)
      /\ ((forall v, parse_capture (m1 mt) <> JSON.Ok v) ->
          extract (mkMessage i MODEL text ts streaming)
          = mkExtraction text []))
  /\ (String_match text suggestionRegex = None ->
      streaming = false ->
      extract (mkMessage i MODEL text ts streaming) = mkExtraction text []).
Proof.
  split.
  - intros mt Hm. split.
    + intros v Hv. destruct (match_capture _ Hm) as [r Hr].
      rewrite Hr in Hv. simpl in Hv.
      now destruct (parse_bracket _ Hv) as [items ->].
    + intros Hv. unfold extract. simpl. rewrite Hm.
      destruct (parse_capture (m1 mt)) as [v| |]; try reflexivity.
      now destruct (Hv v).
  - intros Hm ->. unfold extract. simpl. now rewrite Hm.
Qed.

Lemma C7_malformed_block_witness :
  extract (mkMessage (units "101") MODEL oops_text 0 true)
  = mkExtraction oops_text []
  /\ extract (mkMessage (units "101") MODEL number_text 0 false)
     = mkExtraction number_text [].
Proof.
  split.
  - destruct (C7_malformed_block (units "101") 0 oops_text true) as [H _].
    destruct (String_match oops_text suggestionRegex) as [mt|] eqn:Hm;
      [|vm_compute in Hm; discriminate].
    apply (H mt eq_refl). intros v.
    vm_compute in Hm. injection Hm as <-. vm_compute. discriminate.
  - apply (proj2 (C7_malformed_block (units "101") 0 number_text false));
      vm_compute; reflexivity.
Defined.

(** C7 fails as stated: in [number_text] the delimiters enclose a span that
    parses to a number, not to an array, and a streaming message does not
    show the text unchanged. *)
Lemma C7_counterexample :
  JSON.parse number_span = JSON.Ok (JSON.JNumber (units "42"))
  /\ displayContent (extract (mkMessage (units "101") MODEL number_text 0 true))
     = units "Hi"
  /\ extract (mkMessage (units "101") MODEL number_text 0 true)
     <> mkExtraction number_text [].
Proof.
  repeat split; try (vm_compute; reflexivity).
  vm_compute. discriminate.
Qed.

(* ================================================================== *)
(** ** Arrays and message lists *)
(* ================================================================== *)

Lemma eqb_string_refl a : eqb_string a a = true.
Proof. unfold eqb_string. now destruct (list_eq_dec N.eq_dec a a). Qed.

Lemma eqb_string_neq a b : a <> b -> eqb_string a b = false.
Proof. unfold eqb_string. now destruct (list_eq_dec N.eq_dec a b). Qed.

Section ArrayFacts.
Variable A : Type.
Implicit Types (a l : list A) (x y : A).

Lemma Array_get_of_nat a n : Array_get a (Z.of_nat n) = nth_error a n.
Proof.
  unfold Array_get. destruct (Z.ltb_spec (Z.of_nat n) 0); [lia|].
  now rewrite Nat2Z.id.
Qed.

Lemma Array_get_app l x r :
  Array_get (l ++ x :: r) (Z.of_nat (length l)) = Some x.
Proof.
  rewrite Array_get_of_nat, nth_error_app2, Nat.sub_diag by lia. reflexivity.
Qed.

Lemma Array_set_app l x r y :
  Array_set (l ++ x :: r) (length l) y = l ++ y :: r.
Proof. induction l as [|z l IH]; simpl; [reflexivity|now f_equal]. Qed.

Lemma Array_slice_prefix a n :
  n <= length a -> Array_slice a 0 (Z.of_nat n) = firstn n a.
Proof.
  intros H. unfold Array_slice.
  destruct (Z.ltb_spec 0 0); [lia|].
  destruct (Z.ltb_spec (Z.of_nat n) 0); [lia|].
  rewrite Z.min_l by lia. rewrite Z.min_l by lia.
  rewrite Z.sub_0_r, Nat2Z.id. reflexivity.
Qed.

Lemma findIndex_app (p : A -> bool) l x r :
  (forall z, In z l -> p z = false) ->
  p x = true ->
  findIndex p (l ++ x :: r) = Z.of_nat (length l).
Proof.
  intros Hl Hx. induction l as [|z l IH]; simpl.
  - now rewrite Hx.
  - rewrite (Hl z) by now left.
    rewrite IH by (intros; apply Hl; now right).
    destruct (Z.eqb_spec (Z.of_nat (length l)) (-1)); lia.
Qed.


End ArrayFacts.

Section Updaters.
Variables (aiId : list N) (pre : list Message).
Hypothesis fresh : forall m, In m pre -> id m <> aiId.

Lemma setContent_last acc acc' ts b :
  setContent aiId acc' (pre ++ [mkMessage aiId MODEL acc ts b])
  = pre ++ [mkMessage aiId MODEL acc' ts b].
Proof.
  unfold setContent.
  replace (Z.of_nat (length (pre ++ [mkMessage aiId MODEL acc ts b])) - 1)%Z
    with (Z.of_nat (length pre)) by (rewrite length_app; simpl; lia).
  rewrite Array_get_app. simpl id. rewrite eqb_string_refl.
  destruct (Z.geb_spec (Z.of_nat (length pre)) 0); [|lia].
  simpl. now rewrite Nat2Z.id, Array_set_app.
Qed.

Lemma clearStreaming_last acc ts b :
  clearStreaming aiId (pre ++ [mkMessage aiId MODEL acc ts b])
  = pre ++ [mkMessage aiId MODEL acc ts false].
Proof.
  unfold clearStreaming. rewrite findIndex_app.
  - destruct (Z.eqb_spec (Z.of_nat (length pre)) (-1)); [lia|]. simpl.
    now rewrite Array_get_app, Nat2Z.id, Array_set_app.
  - intros m Hm. apply eqb_string_neq. now apply fresh.
  - apply eqb_string_refl.
Qed.

Lemma markFailed_last acc ts b :
  markFailed aiId (pre ++ [mkMessage aiId MODEL acc ts b])
  = pre ++ [mkMessage aiId MODEL
              (match acc with [] => failureText | _ :: _ => acc end) ts false].
Proof.
  unfold markFailed. rewrite map_app. simpl. rewrite eqb_string_refl.
  f_equal. rewrite <- (map_id pre) at 2. apply map_ext_in.
  intros m Hm. rewrite eqb_string_neq; [reflexivity|now apply fresh].
Qed.
End Updaters.

(* ================================================================== *)
(** ** One send, from start to settlement *)
(* ================================================================== *)

Lemma unused_spec i ms :
  unused i ms = true -> forall m, In m ms -> id m <> i.
Proof.
  unfold unused. rewrite forallb_forall. intros H m Hm Heq.
  specialize (H m Hm). subst i. now rewrite eqb_string_refl in H.
Qed.

Lemma handleSendMessage_eq text isRegenerate clk st :
  handleSendMessage text isRegenerate clk st
  = mkState
      ((if isRegenerate then messages st
        else messages st ++ [userMessage text clk])
       ++ [placeholder clk [] true])
      true None false
      (fst (sendMessageStream text (geminiService st)))
      (running st
       ++ [mkActivation (toString (now_ai clk + 1)) []
             (snd (sendMessageStream text (geminiService st)))]).
Proof.
  unfold handleSendMessage.
  destruct (sendMessageStream text (geminiService st)) as [svc req].
  now destruct isRegenerate.
Qed.

Lemma resume_fragment pre aiId ts req acc chunk st :
  messages st = pre ++ [mkMessage aiId MODEL acc ts true] ->
  running st = [mkActivation aiId acc req] ->
  stopGeneration st = false ->
  resume 0 (Yield chunk) st
  = mkState (pre ++ [mkMessage aiId MODEL (acc ++ chunk) ts true])
            (isLoading st) (error st) false (geminiService st)
            [mkActivation aiId (acc ++ chunk) req].
Proof.
  intros Hm Hr Hs. unfold resume. rewrite Hr, Hs. simpl.
  now rewrite Hm, setContent_last, Hs, Hr.
Qed.

Lemma fragments_spec pre aiId ts req chunks : forall acc st,
  messages st = pre ++ [mkMessage aiId MODEL acc ts true] ->
  running st = [mkActivation aiId acc req] ->
  stopGeneration st = false ->
  fragments 0 chunks st
  = mkState (pre ++ [mkMessage aiId MODEL (acc ++ concat chunks) ts true])
            (isLoading st) (error st) false (geminiService st)
            [mkActivation aiId (acc ++ concat chunks) req].
Proof.
  unfold fragments.
  induction chunks as [|c chunks IH]; intros acc st Hm Hr Hs; simpl.
  - rewrite app_nil_r. destruct st; simpl in *. now subst.
  - rewrite (@resume_fragment _ _ _ _ _ c _ Hm Hr Hs).
    rewrite (IH (acc ++ c)); simpl; try reflexivity.
    now rewrite <- app_assoc.
Qed.

Section OneSend.
Variables (st0 : State) (text : list N) (clk : Clock) (chunks : list (list N)).
Hypothesis idle : running st0 = [].
Hypothesis fresh_id :
  unused (toString (now_ai clk + 1)) (messages st0 ++ [userMessage text clk])
  = true.

Let fresh := @unused_spec _ _ fresh_id.

Let st1 := handleSendMessage text false clk st0.
Let st2 := fragments 0 chunks st1.

Lemma streaming_state :
  st2 = mkState
          (messages st0 ++ [userMessage text clk; placeholder clk (concat chunks) true])
          true None false
          (fst (sendMessageStream text (geminiService st0)))
          [mkActivation (toString (now_ai clk + 1)) (concat chunks)
             (snd (sendMessageStream text (geminiService st0)))].
Proof.
  unfold st2, st1. rewrite handleSendMessage_eq, idle. simpl app.
  rewrite (@fragments_spec (messages st0 ++ [userMessage text clk])
             (toString (now_ai clk + 1)) (date_ai clk)
             (snd (sendMessageStream text (geminiService st0))) chunks []).
  - simpl. now rewrite <- app_assoc.
  - reflexivity.
  - reflexivity.
  - reflexivity.
Qed.


Lemma failed_state :
  resume 0 Throw st2
  = mkState
      (messages st0
       ++ [userMessage text clk;
           placeholder clk
             (match concat chunks with
              | [] => failureText
              | _ :: _ => concat chunks
              end) false])
      false (Some errorBanner) false
      (fst (sendMessageStream text (geminiService st0))) [].
Proof.
  rewrite streaming_state. unfold resume, settle, setMessages. simpl.
  change (messages st0 ++ [userMessage text clk; placeholder clk (concat chunks) true])
    with (messages st0 ++ [userMessage text clk] ++ [placeholder clk (concat chunks) true]).
  rewrite app_assoc. unfold placeholder. rewrite markFailed_last by exact fresh.
  now rewrite <- app_assoc.
Qed.

End OneSend.

(* ================================================================== *)
(** ** Regenerate and edit *)
(* ================================================================== *)

Lemma regenerate_acts hist U M clk st :
  messages st = hist ++ [U; M] ->
  role U = USER ->
  role M = MODEL ->
  isLoading st = false ->
  handleRegenerate clk st
  = handleSendMessage (content U) true clk
      (mkState (hist ++ [U]) false (error st) (stopGeneration st)
               (startChat (Some (historyForSdk hist)) (geminiService st))
               (running st)).
Proof.
  intros Hm HU HM Hl. unfold handleRegenerate. rewrite Hm, Hl.
  assert (Hlen : Z.of_nat (length (hist ++ [U; M]))
                 = (Z.of_nat (length hist) + 2)%Z)
    by (rewrite length_app; simpl; lia).
  rewrite Hlen.
  destruct (Z.eqb_spec (Z.of_nat (length hist) + 2) 0); [lia|]. simpl orb.
  cbv iota.
  replace (Z.of_nat (length hist) + 2 - 1)%Z
    with (Z.of_nat (length (hist ++ [U]))) by (rewrite length_app; simpl; lia).
  replace (Z.of_nat (length hist) + 2 - 2)%Z
    with (Z.of_nat (length hist)) by lia.
  change (hist ++ [U; M]) with (hist ++ [U] ++ [M]).
  rewrite app_assoc, Array_get_app, HM. simpl Role_eqb. cbv iota.
  rewrite <- app_assoc. simpl app.
  rewrite Array_get_app, HU. simpl Role_eqb. cbv iota.
  destruct (Z.eqb_spec (Z.of_nat (length hist)) (-1)); [lia|]. simpl negb.
  cbv iota.
  rewrite !Array_slice_prefix by (rewrite !length_app; simpl; lia).
  rewrite firstn_exact.
  change (hist ++ [U; M]) with (hist ++ [U] ++ [M]).
  rewrite app_assoc, firstn_exact.
  unfold restartChat, setMessages. destruct st; simpl in *. now subst.
Qed.

Lemma edit_acts hist U rest T clk st :
  messages st = hist ++ U :: rest ->
  unused (id U) hist = true ->
  role U = USER ->
  handleEdit (id U) T clk st
  = handleSendMessage T false clk
      (mkState hist (isLoading st) (error st) (stopGeneration st)
               (startChat (Some (historyForSdk hist)) (geminiService st))
               (running st)).
Proof.
  intros Hm Hu HU. unfold handleEdit. rewrite Hm.
  rewrite findIndex_app.
  - destruct (Z.eqb_spec (Z.of_nat (length hist)) (-1)); [lia|].
    rewrite Array_get_app, HU. simpl Role_eqb. simpl negb. cbv iota.
    rewrite Array_slice_prefix by (rewrite length_app; simpl; lia).
    rewrite firstn_exact.
    unfold restartChat, setMessages. destruct st; simpl in *. reflexivity.
  - intros m Hin. apply eqb_string_neq. now apply (@unused_spec _ _ Hu).
  - apply eqb_string_refl.
Qed.

Lemma regenerate_while_loading clk st :
  isLoading st = true -> handleRegenerate clk st = st.
Proof.
  intros H. unfold handleRegenerate. rewrite H. now rewrite orb_true_r.
Qed.

Lemma resume_idle k sig st : running st = [] -> resume k sig st = st.
Proof. intros H. unfold resume. rewrite H. now destruct k. Qed.

(* ================================================================== *)
(** ** Runs that respect the loading flag stream one message at a time *)
(* ================================================================== *)

Lemma streamingCount_app l l' :
  streamingCount (l ++ l') = streamingCount l + streamingCount l'.
Proof. unfold streamingCount. now rewrite filter_app, length_app. Qed.

Lemma streamingCount_firstn n l :
  streamingCount l = 0 -> streamingCount (firstn n l) = 0.
Proof.
  intros H. rewrite <- (firstn_skipn n l), streamingCount_app in H. lia.
Qed.

Lemma unused_app i l l' : unused i (l ++ l') = unused i l && unused i l'.
Proof. unfold unused. apply forallb_app. Qed.

Lemma unused_firstn i n l : unused i l = true -> unused i (firstn n l) = true.
Proof.
  intros H. rewrite <- (firstn_skipn n l), unused_app in H.
  now apply andb_true_iff in H as [H _].
Qed.

Lemma Array_slice_firstn (A : Type) (a : list A) (stop : Z) :
  exists n, Array_slice a 0 stop = firstn n a.
Proof.
  unfold Array_slice. change (0 <? 0)%Z with false. cbv iota.
  rewrite (Z.min_l 0) by lia. change (Z.to_nat 0) with 0. simpl skipn. eauto.
Qed.

(** A send started while nothing is in flight. *)
Lemma send_busy (text : list N) (isRegenerate : bool) clk st :
  running st = [] ->
  unused (toString (now_ai clk + 1))
         (if isRegenerate then messages st
          else messages st ++ [userMessage text clk]) = true ->
  streamingCount (if isRegenerate then messages st
                  else messages st ++ [userMessage text clk]) = 0 ->
  Inv (handleSendMessage text isRegenerate clk st).
Proof.
  intros Hr Hu Hc. rewrite handleSendMessage_eq, Hr.
  eapply Busy; simpl; try reflexivity; assumption.
Qed.

Lemma freshClock_spec clk st (text : list N) :
  freshClock clk st = true ->
  unused (toString (now_ai clk + 1)) (messages st ++ [userMessage text clk])
  = true.
Proof.
  unfold freshClock. intros H. apply andb_true_iff in H as [H1 H2].
  rewrite unused_app, H1. unfold unused. simpl. now rewrite H2.
Qed.

Lemma handleRegenerate_cases clk st :
  handleRegenerate clk st = st
  \/ exists n c svc,
       isLoading st = false
       /\ handleRegenerate clk st
          = handleSendMessage c true clk
              (mkState (firstn n (messages st)) (isLoading st) (error st)
                       (stopGeneration st) svc (running st)).
Proof.
  unfold handleRegenerate.
  destruct (Z.of_nat (length (messages st)) =? 0)%Z; [now left|].
  destruct (isLoading st) eqn:Hl; [now left|]. simpl orb. cbv iota.
  destruct (Array_get (messages st) (Z.of_nat (length (messages st)) - 1))
    as [lastMsg|]; [|now left].
  destruct (Role_eqb (role lastMsg) MODEL); [|now left].
  destruct (Array_get (messages st) (Z.of_nat (length (messages st)) - 2))
    as [prevMsg|]; [|now left].
  destruct (Role_eqb (role prevMsg) USER); [|now left].
  destruct (negb (Z.of_nat (length (messages st)) - 2 =? -1)%Z); [|now left].
  right.
  destruct (Array_slice_firstn (messages st)
              (Z.of_nat (length (messages st)) - 1)) as [n Hn].
  exists n, (content prevMsg). eexists. split; [reflexivity|].
  unfold restartChat, setMessages. simpl. rewrite Hn. reflexivity.
Qed.

Lemma handleEdit_cases msgId T clk st :
  handleEdit msgId T clk st = st
  \/ exists n svc,
       handleEdit msgId T clk st
       = handleSendMessage T false clk
           (mkState (firstn n (messages st)) (isLoading st) (error st)
                    (stopGeneration st) svc (running st)).
Proof.
  unfold handleEdit.
  destruct (findIndex _ (messages st) =? -1)%Z; [now left|].
  destruct (Array_get (messages st) _) as [m|]; [|now left].
  destruct (negb (Role_eqb (role m) USER)); [now left|].
  right.
  destruct (Array_slice_firstn (messages st)
              (findIndex (fun m0 => eqb_string (id m0) msgId) (messages st)))
    as [n Hn].
  exists n. eexists.
  unfold restartChat, setMessages. simpl. rewrite Hn. reflexivity.
Qed.

Section UpdatersOnLast.
Variables (aiId : list N) (pre : list Message) (m : Message).
Hypothesis carries : id m = aiId.
Hypothesis fresh : unused aiId pre = true.

Lemma setContent_placeholder acc :
  setContent aiId acc (pre ++ [m])
  = pre ++ [mkMessage (id m) (role m) acc (timestamp m) (isStreaming m)].
Proof.
  unfold setContent.
  replace (Z.of_nat (length (pre ++ [m])) - 1)%Z
    with (Z.of_nat (length pre)) by (rewrite length_app; simpl; lia).
  rewrite Array_get_app, carries, eqb_string_refl.
  destruct (Z.geb_spec (Z.of_nat (length pre)) 0); [|lia].
  simpl. now rewrite Nat2Z.id, Array_set_app.
Qed.

Lemma clearStreaming_placeholder :
  clearStreaming aiId (pre ++ [m])
  = pre ++ [mkMessage (id m) (role m) (content m) (timestamp m) false].
Proof.
  unfold clearStreaming. rewrite findIndex_app.
  - destruct (Z.eqb_spec (Z.of_nat (length pre)) (-1)); [lia|]. simpl.
    now rewrite Array_get_app, Nat2Z.id, Array_set_app.
  - intros z Hz. apply eqb_string_neq. now apply (@unused_spec _ _ fresh).
  - rewrite carries. apply eqb_string_refl.
Qed.

Lemma markFailed_placeholder :
  exists m', isStreaming m' = false /\ markFailed aiId (pre ++ [m]) = pre ++ [m'].
Proof.
  eexists. split; [|unfold markFailed; rewrite map_app; simpl;
                    rewrite carries, eqb_string_refl; f_equal;
                    rewrite <- (map_id pre) at 2; apply map_ext_in;
                    intros z Hz; rewrite eqb_string_neq;
                    [reflexivity|now apply (@unused_spec _ _ fresh)]].
  reflexivity.
Qed.

End UpdatersOnLast.

Lemma inv_settled st pre m :
  isLoading st = false -> running st = [] ->
  messages st = pre ++ [m] -> streamingCount pre = 0 ->
  isStreaming m = false -> Inv st.
Proof.
  intros Hl Hr Hm Hp Hs. apply Idle; try assumption.
  rewrite Hm, streamingCount_app, Hp. unfold streamingCount. simpl.
  now rewrite Hs.
Qed.

Lemma inv_resume k sig st : Inv st -> Inv (resume k sig st).
Proof.
  intros [Hl Hr Hc|a Hl Hr Hm|a pre m Hl Hr Hm Hid Hu Hc].
  - rewrite resume_idle by assumption. now apply Idle.
  - unfold resume. rewrite Hr.
    destruct k as [|k]; [|destruct k; simpl; now apply (@Cleared st a)].
    simpl. destruct sig.
    + destruct (stopGeneration st).
      * apply Idle; simpl; now rewrite ?Hr, ?Hm.
      * apply (@Cleared _ (mkActivation (aiMessageId a)
                            (accumulatedText a ++ text) (stream a)));
          simpl; now rewrite ?Hr, ?Hm.
    + now apply (@Cleared st a).
    + apply Idle; simpl; now rewrite ?Hr, ?Hm.
    + apply Idle; simpl; now rewrite ?Hr, ?Hm.
  - assert (Hstop : Inv (settle 0 (setMessages
                                     (clearStreaming (aiMessageId a)) st))).
    { apply (@inv_settled _ pre
               (mkMessage (id m) (role m) (content m) (timestamp m) false));
        simpl; try reflexivity; try assumption.
      - now rewrite Hr.
      - rewrite Hm. now apply clearStreaming_placeholder. }
    unfold resume. rewrite Hr.
    destruct k as [|k]; [|destruct k; simpl; now apply (@Busy st a pre m)].
    simpl. destruct sig.
    + destruct (stopGeneration st); [exact Hstop|].
      apply (@Busy _ (mkActivation (aiMessageId a)
                       (accumulatedText a ++ text) (stream a)) pre
               (mkMessage (id m) (role m) (accumulatedText a ++ text)
                          (timestamp m) (isStreaming m)));
        simpl; try assumption.
      * now rewrite Hr.
      * rewrite Hm. now apply setContent_placeholder.
    + now apply (@Busy st a pre m).
    + exact Hstop.
    + destruct (@markFailed_placeholder (aiMessageId a) pre m Hid Hu)
        as (m' & Hs & Hf).
      apply (@inv_settled _ pre m'); simpl; rewrite ?Hr, ?Hm;
        try reflexivity; assumption.
Qed.

Lemma inv_stop st : Inv st -> Inv (handleStop st).
Proof.
  intros H. unfold handleStop. destruct (isLoading st) eqn:Hl; [|exact H].
  destruct H as [Hl' Hr Hc|a Hl' Hr Hm|a pre m Hl' Hr Hm Hid Hu Hc].
  - congruence.
  - now apply (@Cleared _ a).
  - now apply (@Busy _ a pre m).
Qed.

Lemma inv_clear confirmed st : Inv st -> Inv (handleClearChat confirmed st).
Proof.
  intros H. unfold handleClearChat. destruct confirmed; [|exact H].
  destruct H as [Hl Hr Hc|a Hl Hr Hm|a pre m Hl Hr Hm Hid Hu Hc].
  - now apply Idle.
  - now apply (@Cleared _ a).
  - now apply (@Cleared _ a).
Qed.

Lemma inv_idle st :
  Inv st -> isLoading st = false ->
  running st = [] /\ streamingCount (messages st) = 0.
Proof.
  intros [Hl Hr Hc|a Hl Hr Hm|a pre m Hl Hr Hm Hid Hu Hc] H;
    [now split|congruence|congruence].
Qed.

Lemma inv_send text clk st :
  Inv st -> isLoading st = false -> freshClock clk st = true ->
  Inv (handleSendMessage text false clk st).
Proof.
  intros H Hl Hf. destruct (inv_idle H Hl) as [Hr Hc].
  apply send_busy; [assumption|now apply freshClock_spec|].
  now rewrite streamingCount_app, Hc.
Qed.

Lemma inv_send_on_prefix text isRegenerate clk st n svc :
  Inv st -> isLoading st = false -> freshClock clk st = true ->
  Inv (handleSendMessage text isRegenerate clk
         (mkState (firstn n (messages st)) (isLoading st) (error st)
                  (stopGeneration st) svc (running st))).
Proof.
  intros H Hl Hf. destruct (inv_idle H Hl) as [Hr Hc].
  unfold freshClock in Hf. apply andb_true_iff in Hf as [Hf1 Hf2].
  apply send_busy; simpl; [assumption| |].
  - destruct isRegenerate; [now apply unused_firstn|].
    rewrite unused_app, unused_firstn by assumption.
    unfold unused. simpl. now rewrite Hf2.
  - destruct isRegenerate; [now apply streamingCount_firstn|].
    now rewrite streamingCount_app, streamingCount_firstn.
Qed.

Lemma inv_step st ev : Inv st -> admissible st ev = true -> Inv (step st ev).
Proof.
  intros H Ha.
  destruct ev as [input clk|i j clk|i T clk|clk|confirmed|k e|second clk];
    simpl in *.
  - unfold handleSubmit. destruct (isLoading st) eqn:Hl; [now apply inv_stop|].
    destruct (trim input); [exact H|]. now apply inv_send.
  - apply andb_true_iff in Ha as [Ha _].
    apply andb_true_iff in Ha as [Hl Hf]. apply negb_true_iff in Hl.
    unfold suggestionClick.
    destruct (nth_error (messages st) i) as [m|]; [|exact H].
    destruct (nth_error _ j) as [[| | |text| |]|]; try exact H.
    destruct (Role_eqb (role m) USER); [exact H|]. now apply inv_send.
  - apply andb_true_iff in Ha as [Hl Hf]. apply negb_true_iff in Hl.
    unfold saveEdit.
    destruct (nth_error (messages st) i) as [m|]; [|exact H].
    destruct (Role_eqb (role m) USER && negb (isStreaming m)); [|exact H].
    destruct (eqb_string (trim T) (content m)); [exact H|].
    destruct (handleEdit_cases (id m) T clk st) as [->|(n & svc & ->)];
      [exact H|].
    now apply inv_send_on_prefix.
  - unfold regenerateClick.
    destruct (Array_get _ _) as [m|]; [|exact H].
    destruct (Role_eqb (role m) MODEL && negb (isStreaming m)); [|exact H].
    destruct (handleRegenerate_cases clk st)
      as [->|(n & c & svc & Hl & ->)]; [exact H|].
    now apply inv_send_on_prefix.
  - now apply inv_clear.
  - now apply inv_resume.
  - apply andb_true_iff in Ha as [Hl Hf]. apply negb_true_iff in Hl.
    unfold starterClick. destruct (messages st); [|exact H].
    now apply inv_send.
Qed.

Lemma inv_run evs : forall st,
  Inv st -> admissibleRun st evs = true -> Inv (run_events evs st).
Proof.
  induction evs as [|ev evs IH]; intros st H Ha; simpl in *; [exact H|].
  apply andb_true_iff in Ha as [Ha1 Ha2].
  apply IH; [now apply inv_step|exact Ha2].
Qed.

Lemma inv_streaming st : Inv st -> streamingCount (messages st) <= 1.
Proof.
  intros [Hl Hr Hc|a Hl Hr Hm|a pre m Hl Hr Hm Hid Hu Hc].
  - lia.
  - rewrite Hm. unfold streamingCount. simpl. lia.
  - rewrite Hm, streamingCount_app, Hc. unfold streamingCount. simpl.
    destruct (isStreaming m); simpl; lia.
Qed.

(** In every run from the mounted component in which chips and the buttons
    of the empty state are clicked and edits saved only while no send is
    outstanding, every clicked chip is a string, and every send creates
    new ids, at most one message is streaming. *)
Theorem guarded_runs_stream_one_message evs :
  admissibleRun mounted evs = true ->
  streamingCount (messages (run_events evs mounted)) <= 1.
Proof.
  intros Ha. apply inv_streaming, inv_run; [|exact Ha].
  now apply Idle.
Qed.

Example two_exchanges_admissible :
  admissibleRun mounted two_exchanges = true
  /\ admissibleRun mounted chip_during_stream = false.
Proof. vm_compute. split; reflexivity. Qed.

(** A button of the empty state clicked while a cleared send is still in
    flight is not such a run, and it ends with two streaming messages. *)
Example starter_during_send_not_admissible :
  admissibleRun mounted starter_during_send = false
  /\ isLoading (run_events (firstn 4 starter_during_send) mounted) = false
  /\ length (running (run_events (firstn 4 starter_during_send) mounted)) = 1
  /\ streamingCount (messages (run_events starter_during_send mounted)) = 2.
Proof. vm_compute. repeat split. Qed.

(* ================================================================== *)
(** ** The conversation: the claims *)
(* ================================================================== *)

(** C2.  On a conversation [U1; M1; U2; M2] whose last message is a model
    message preceded by a user message, with no send in flight, regenerate
    starts a new session seeded with exactly [U1; M1], removes [M2] and
    keeps [U2], and sends [U2]'s content on the new session without adding
    a user message: the list ends with a new streaming placeholder. *)
Theorem C2_regenerate U1 M1 U2 M2 clk st :
  messages st = [U1; M1; U2; M2] ->
  role U2 = USER ->
  role M2 = MODEL ->
  isLoading st = false ->
  handleRegenerate clk st
  = mkState [U1; M1; U2; placeholder clk [] true] true None false
      (mkService (Some (mkChat (Some [mkContent (role U1) [content U1];
                               mkContent (role M1) [content M1]]))))
      (running st
       ++ [mkActivation (toString (now_ai clk + 1)) []
             (mkRequest (mkChat (Some [mkContent (role U1) [content U1];
                               mkContent (role M1) [content M1]]))
                        (content U2))]).
Proof.
  intros Hm HU HM Hl.
  rewrite (@regenerate_acts [U1; M1] U2 M2 clk st Hm HU HM Hl).
  now rewrite handleSendMessage_eq.
Qed.

Example two_turns_reachable : run_events two_exchanges mounted = two_turns.
Proof. vm_compute. reflexivity. Qed.

Lemma C2_regenerate_witness :
  handleRegenerate (at_time 300) two_turns
  = mkState [sU1; sM1; sU2; placeholder (at_time 300) [] true] true None false
      (mkService (Some (mkChat (Some [mkContent USER [units "hi"];
                               mkContent MODEL [units "yo"]]))))
      (running two_turns
       ++ [mkActivation (toString (now_ai (at_time 300) + 1)) []
             (mkRequest (mkChat (Some [mkContent USER [units "hi"];
                               mkContent MODEL [units "yo"]]))
                        (content sU2))]).
Proof.
  apply (@C2_regenerate sU1 sM1 sU2 sM2 (at_time 300) two_turns);
    reflexivity.
Defined.

(** C3.  On a conversation [U1; M1; U2; M2] (ids distinct), edit applied to
    [U2]'s id with the text [T] starts a new session seeded with exactly
    [U1; M1], cuts the list down to that prefix, and sends [T] as a fresh
    turn: a new user message with content [T] and a streaming placeholder
    are appended, and the request for [T] goes to the new session. *)
Theorem C3_edit U1 M1 U2 M2 T clk st :
  messages st = [U1; M1; U2; M2] ->
  role U2 = USER ->
  id U1 <> id U2 ->
  id M1 <> id U2 ->
  handleEdit (id U2) T clk st
  = mkState [U1; M1; userMessage T clk; placeholder clk [] true]
      true None false
      (mkService (Some (mkChat (Some [mkContent (role U1) [content U1];
                               mkContent (role M1) [content M1]]))))
      (running st
       ++ [mkActivation (toString (now_ai clk + 1)) []
             (mkRequest (mkChat (Some [mkContent (role U1) [content U1];
                               mkContent (role M1) [content M1]])) T)]).
Proof.
  intros Hm HU H1 H2.
  rewrite (@edit_acts [U1; M1] U2 [M2] T clk st Hm).
  - now rewrite handleSendMessage_eq.
  - unfold unused. simpl. now rewrite !eqb_string_neq.
  - exact HU.
Qed.

Lemma C3_edit_witness :
  handleEdit (id sU2) (units "how") (at_time 300) two_turns
  = mkState [sU1; sM1; userMessage (units "how") (at_time 300);
             placeholder (at_time 300) [] true]
      true None false
      (mkService (Some (mkChat (Some [mkContent USER [units "hi"];
                               mkContent MODEL [units "yo"]]))))
      (running two_turns
       ++ [mkActivation (toString (now_ai (at_time 300) + 1)) []
             (mkRequest (mkChat (Some [mkContent USER [units "hi"];
                               mkContent MODEL [units "yo"]]))
                        (units "how"))]).
Proof.
  apply (@C3_edit sU1 sM1 sU2 sM2 (units "how") (at_time 300) two_turns);
    try reflexivity; vm_compute; discriminate.
Defined.

(** C4: the code breaks the invariant.  After a first exchange whose answer
    offers chips, a second question is being answered (one message is
    streaming, the loading flag is set) when a chip of the first answer is
    clicked: [handleSendMessage] runs without looking at the flag, and two
    messages are streaming. *)
Theorem C4_two_streaming_messages :
  streamingCount
    (messages (run_events (first_exchange
                           ++ [Submit (units "again") (at_time 200)]) mounted))
  = 1
  /\ isLoading (run_events (first_exchange
                            ++ [Submit (units "again") (at_time 200)]) mounted)
     = true
  /\ streamingCount (messages (run_events chip_during_stream mounted)) = 2.
Proof. vm_compute. auto. Qed.

(** C5: the code breaks the claim for edit.  While the answer to the first
    message is streaming (the loading flag is set), regenerate does nothing,
    and saving an edit of the first user message replaces the message list
    and the session. *)
Theorem C5_edit_while_loading :
  isLoading (run_events streaming_answer mounted) = true
  /\ handleRegenerate (at_time 200) (run_events streaming_answer mounted)
     = run_events streaming_answer mounted
  /\ messages (run_events streaming_answer mounted)
     = [userMessage (units "hi") (at_time 100);
        placeholder (at_time 100) (units "Hel") true]
  /\ messages (step (run_events streaming_answer mounted)
                    (SaveEdit 0 (units "hey") (at_time 200)))
     = [userMessage (units "hey") (at_time 200);
        placeholder (at_time 200) [] true]
  /\ geminiService (run_events streaming_answer mounted)
     = mkService (Some (mkChat None))
  /\ geminiService (step (run_events streaming_answer mounted)
                         (SaveEdit 0 (units "hey") (at_time 200)))
     = mkService (Some (mkChat (Some []))).
Proof. vm_compute. repeat split. Qed.







Lemma resume_service k sig st :
  geminiService (resume k sig st) = geminiService st.
Proof.
  unfold resume. destruct (nth_error (running st) k); [|reflexivity].
  destruct sig; try reflexivity.
  now destruct (stopGeneration st).
Qed.

(* ================================================================== *)
(** ** Further properties of suggestion extraction *)
(* ================================================================== *)

Lemma startsWith_firstn p k s :
  startsWith p (firstn k s) = true -> startsWith p s = true.
Proof.
  revert k s. induction p as [|a p IH]; intros k s; [reflexivity|].
  destruct k as [|k]; [discriminate|].
  destruct s as [|b s]; [discriminate|]. simpl.
  intros H. apply andb_true_iff in H as [-> H]. simpl. now apply IH in H.
Qed.

Lemma startsWith_app_r p t b :
  startsWith p t = true -> startsWith p (t ++ b) = true.
Proof.
  revert t. induction p as [|a p IH]; intros t; [reflexivity|].
  destruct t as [|c t]; [discriminate|]. simpl.
  intros H. apply andb_true_iff in H as [-> H]. simpl. now apply IH.
Qed.

Lemma indexOf_firstn_none p s : forall n,
  p <> [] -> indexOf p s = Some n -> indexOf p (firstn n s) = None.
Proof.
  induction s as [|c s IH]; intros n Hp; simpl indexOf.
  - destruct p; [congruence|discriminate].
  - destruct (startsWith p (c :: s)) eqn:Hs.
    + intros [= <-]. simpl. destruct p; [congruence|reflexivity].
    + destruct (indexOf p s) as [m|] eqn:Hm; [|discriminate].
      intros [= <-]. simpl firstn. simpl indexOf.
      destruct (startsWith p (c :: firstn m s)) eqn:Hf.
      * apply (startsWith_firstn p (S m) (c :: s)) in Hf. congruence.
      * now rewrite (IH m Hp eq_refl).
Qed.

Lemma includes_app_r p t b :
  includes p t = true -> includes p (t ++ b) = true.
Proof.
  unfold includes. induction t as [|c t IH]; simpl.
  - destruct (startsWith p []) eqn:Hs; [|discriminate]. intros _.
    destruct p; [|discriminate]. now destruct b.
  - destruct (startsWith p (c :: t)) eqn:Hs.
    + intros _. pose proof (startsWith_app_r p (c :: t) b Hs) as H.
      simpl in H. now rewrite H.
    + destruct (startsWith p (c :: t ++ b)); [reflexivity|].
      destruct (indexOf p t); [|discriminate]. intros _.
      specialize (IH eq_refl). now destruct (indexOf p (t ++ b)).
Qed.

Lemma includes_app_l p a t :
  includes p t = true -> includes p (a ++ t) = true.
Proof.
  unfold includes. intros H. induction a as [|c a IH]; [exact H|].
  simpl. destruct (startsWith p (c :: a ++ t)); [reflexivity|].
  now destruct (indexOf p (a ++ t)).
Qed.

Lemma trimStart_suffix s : exists a, s = a ++ trimStart s.
Proof.
  induction s as [|c s [a IH]]; [now exists []|]. simpl.
  destruct (is_space c); [|now exists []].
  exists (c :: a). simpl. now f_equal.
Qed.

Lemma trim_inside s : exists a b, s = a ++ trim s ++ b.
Proof.
  destruct (trimStart_suffix s) as [a Ha].
  destruct (trimStart_suffix (rev (trimStart s))) as [b Hb].
  exists a, (rev b). unfold trim, trimEnd.
  rewrite Ha at 1. f_equal.
  rewrite <- (rev_involutive (trimStart s)) at 1.
  rewrite Hb at 1. now rewrite rev_app_distr.
Qed.

Lemma includes_trim p s : includes p (trim s) = true -> includes p s = true.
Proof.
  intros H. destruct (trim_inside s) as (a & b & Hs). rewrite Hs.
  now apply includes_app_l, includes_app_r.
Qed.

(** The streaming branch of the extractor. *)
Lemma extract_streaming_cut i ts text off :
  String_match text suggestionRegex = None ->
  indexOf partialToken text = Some off ->
  extract (mkMessage i MODEL text ts true)
  = mkExtraction (trim (firstn off text)) [].
Proof.
  intros Hm Hi. unfold extract. simpl. rewrite Hm, (test_partial _ Hi).
  unfold split. change (units "<<<SUGGESTIONS") with partialToken.
  change partialToken with (60%N :: skipn 1 partialToken) at 1.
  cbv iota. change (60%N :: skipn 1 partialToken) with partialToken.
  now rewrite (split_go_hd _ _ [] Hi).
Qed.

(** While a model message is streaming and the marker pattern does not
    match its text, the display text never contains the opening token
    [<<<SUGGESTIONS]. *)
Theorem streaming_display_hides_token i ts text :
  String_match text suggestionRegex = None ->
  includes partialToken
    (displayContent (extract (mkMessage i MODEL text ts true))) = false.
Proof.
  intros Hm. destruct (indexOf partialToken text) as [off|] eqn:Hi.
  - rewrite (extract_streaming_cut i ts _ Hm Hi). simpl.
    destruct (includes partialToken (trim (firstn off text))) eqn:Hc;
      [|reflexivity].
    apply includes_trim in Hc. unfold includes in Hc.
    rewrite (@indexOf_firstn_none partialToken text off) in Hc;
      [discriminate|discriminate|exact Hi].
  - assert (Hn : includes partialToken text = false)
      by (unfold includes; now rewrite Hi).
    destruct (no_token_no_match _ Hn) as [_ Ht].
    unfold extract. simpl. now rewrite Hm, Ht.
Qed.

Lemma streaming_display_hides_token_witness :
  includes partialToken
    (displayContent (extract (mkMessage (units "101") MODEL partial_text 0 true)))
  = false.
Proof.
  apply streaming_display_hides_token. vm_compute. reflexivity.
Defined.

(** Suggestions come only from a matched block of a model message whose
    captured span parses as an array: then they are that array, and the
    display text is the text without the matched block, trimmed. *)
Theorem suggestions_only_from_parsed_block m :
  suggestions (extract m) <> [] ->
  role m = MODEL
  /\ exists mt,
       String_match (content m) suggestionRegex = Some mt
       /\ parse_capture (m1 mt) = JSON.Ok (JSON.JArray (suggestions (extract m)))
       /\ displayContent (extract m) = trim (replace (content m) (m0 mt) []).
Proof.
  unfold extract. destruct m as [i r text ts b]. simpl.
  destruct r; simpl; [congruence|].
  destruct (String_match text suggestionRegex) as [mt|] eqn:Hm;
    [|simpl; congruence].
  destruct (parse_capture (m1 mt)) as [v| |] eqn:Hp; simpl; try congruence.
  destruct v; simpl; try congruence.
  intros _. split; [reflexivity|]. exists mt. auto.
Qed.

Lemma suggestions_only_from_parsed_block_witness :
  role chips_message = MODEL
  /\ exists mt,
       String_match (content chips_message) suggestionRegex = Some mt
       /\ parse_capture (m1 mt)
          = JSON.Ok (JSON.JArray (suggestions (extract chips_message)))
       /\ displayContent (extract chips_message)
          = trim (replace (content chips_message) (m0 mt) []).
Proof.
  apply suggestions_only_from_parsed_block. vm_compute. discriminate.
Defined.

(** The marker block need not end the text: when the first opening token
    starts a well-formed block (no early closing inside its literal) whose
    literal parses as an array, the block is cut out wherever it stands,
    and the display text is the text before it joined to the text after it,
    trimmed. *)
Theorem block_removed_anywhere pre ws1 body ws2 post items i ts streaming :
  indexOf openToken (pre ++ block ws1 body ws2 ++ post) = Some (length pre) ->
  forallb is_space ws1 = true ->
  forallb is_space ws2 = true ->
  closes_early (lbracket :: body ++ [rbracket]) = false ->
  JSON.parse (lbracket :: body ++ [rbracket]) = JSON.Ok (JSON.JArray items) ->
  extract (mkMessage i MODEL (pre ++ block ws1 body ws2 ++ post) ts streaming)
  = mkExtraction (trim (pre ++ post)) items.
Proof. intros. now apply extract_block. Qed.

Lemma block_removed_anywhere_witness :
  extract (mkMessage (units "101") MODEL
             (units "Sure. " ++ block (units " ") two_chips_body []
              ++ units " Bye.") 0 true)
  = mkExtraction (trim (units "Sure. " ++ units " Bye."))
      [JSON.JString (units "More"); JSON.JString (units "Why?")].
Proof.
  apply block_removed_anywhere; vm_compute; reflexivity.
Defined.

(* ================================================================== *)
(** ** Further properties of the conversation *)
(* ================================================================== *)

Lemma cleared_after_send st0 text clk acc b :
  unused (toString (now_ai clk + 1)) (messages st0 ++ [userMessage text clk])
  = true ->
  clearStreaming (toString (now_ai clk + 1))
    (messages st0 ++ [userMessage text clk; placeholder clk acc b])
  = messages st0 ++ [userMessage text clk; placeholder clk acc false].
Proof.
  intros Hfresh.
  change (messages st0 ++ [userMessage text clk; placeholder clk acc b])
    with (messages st0 ++ [userMessage text clk] ++ [placeholder clk acc b]).
  rewrite app_assoc. unfold placeholder.
  rewrite clearStreaming_last by exact (@unused_spec _ _ Hfresh).
  now rewrite <- app_assoc.
Qed.

(** A send that runs to the end of its stream, from a state with no other
    send in flight and with an unused model id: the answer is the
    fragments joined in arrival order, the message no longer streams, the
    loading flag is down, no banner is set and nothing stays in flight. *)
Theorem send_runs_to_completion st0 text clk chunks :
  running st0 = [] ->
  unused (toString (now_ai clk + 1)) (messages st0 ++ [userMessage text clk])
  = true ->
  resume 0 (relay Done)
    (fragments 0 chunks (handleSendMessage text false clk st0))
  = mkState
      (messages st0
       ++ [userMessage text clk; placeholder clk (concat chunks) false])
      false None false
      (geminiService (handleSendMessage text false clk st0)) [].
Proof.
  intros Hidle Hfresh.
  rewrite (@streaming_state st0 text clk chunks Hidle).
  unfold resume, settle, setMessages. simpl.
  rewrite (cleared_after_send _ _ _ _ _ Hfresh).
  now rewrite handleSendMessage_eq.
Qed.

Lemma send_runs_to_completion_witness :
  messages
    (resume 0 (relay Done)
       (fragments 0 [units "Hel"; units "lo"]
          (handleSendMessage (units "hi") false (at_time 100) mounted)))
  = [userMessage (units "hi") (at_time 100);
     placeholder (at_time 100) (units "Hello") false].
Proof.
  rewrite (@send_runs_to_completion mounted (units "hi") (at_time 100)
             [units "Hel"; units "lo"] eq_refl eq_refl).
  reflexivity.
Defined.

Lemma resume_skip k st : resume k Skip st = st.
Proof. unfold resume. now destruct (nth_error (running st) k). Qed.

Lemma step_chunk k t st :
  step st (Stream k (Chunk t))
  = match chunkText t with
    | [] => st
    | _ :: _ => resume k (Yield (chunkText t)) st
    end.
Proof.
  simpl. destruct t as [[|c t]|]; simpl; try apply resume_skip. reflexivity.
Qed.

Lemma deliver_spec pre aiId ts req texts : forall acc st,
  messages st = pre ++ [mkMessage aiId MODEL acc ts true] ->
  running st = [mkActivation aiId acc req] ->
  stopGeneration st = false ->
  deliver 0 texts st
  = mkState
      (pre ++ [mkMessage aiId MODEL (acc ++ concat (map chunkText texts)) ts true])
      (isLoading st) (error st) false (geminiService st)
      [mkActivation aiId (acc ++ concat (map chunkText texts)) req].
Proof.
  unfold deliver, run_events.
  induction texts as [|t texts IH]; intros acc st Hm Hr Hs.
  - simpl. rewrite app_nil_r. destruct st; simpl in *. now subst.
  - change (concat (map chunkText (t :: texts)))
      with (chunkText t ++ concat (map chunkText texts)).
    cbn [map fold_left]. rewrite step_chunk.
    destruct (chunkText t) as [|c r] eqn:Ht.
    + now rewrite (IH acc st Hm Hr Hs).
    + rewrite (@resume_fragment pre aiId ts req acc (c :: r) st Hm Hr Hs).
      rewrite (IH (acc ++ c :: r)); try reflexivity.
      simpl. now rewrite <- !app_assoc.
Qed.

(** The adapter passes on only chunks that carry text.  For a send with no
    other send in flight, whatever chunks the SDK delivers, the answer so
    far is their texts joined in order, a chunk without text counting for
    nothing; and such a chunk changes no state at all, so it does not let
    a requested stop take effect either. *)
Theorem chunks_without_text_are_skipped st0 text clk texts :
  running st0 = [] ->
  deliver 0 texts (handleSendMessage text false clk st0)
  = mkState
      (messages st0
       ++ [userMessage text clk;
           placeholder clk (concat (map chunkText texts)) true])
      true None false
      (geminiService (handleSendMessage text false clk st0))
      [mkActivation (toString (now_ai clk + 1))
         (concat (map chunkText texts))
         (snd (sendMessageStream text (geminiService st0)))]
  /\ forall k st,
       step st (Stream k (Chunk None)) = st
       /\ step st (Stream k (Chunk (Some []))) = st.
Proof.
  intros Hidle. split.
  - rewrite handleSendMessage_eq, Hidle. simpl app.
    rewrite (@deliver_spec (messages st0 ++ [userMessage text clk])
               (toString (now_ai clk + 1)) (date_ai clk)
               (snd (sendMessageStream text (geminiService st0))) texts []);
      try reflexivity.
    simpl. now rewrite <- app_assoc.
  - intros k st. split; apply resume_skip.
Qed.

Lemma chunks_without_text_are_skipped_witness :
  messages
    (deliver 0 [Some (units "Hel"); None; Some []; Some (units "lo")]
       (handleSendMessage (units "hi") false (at_time 100) mounted))
  = [userMessage (units "hi") (at_time 100);
     placeholder (at_time 100) (units "Hello") true].
Proof.
  rewrite (proj1 (@chunks_without_text_are_skipped mounted (units "hi")
                    (at_time 100)
                    [Some (units "Hel"); None; Some []; Some (units "lo")]
                    eq_refl)).
  reflexivity.
Defined.

Lemma resume_keeps_empty k sig st :
  messages st = [] -> messages (resume k sig st) = [].
Proof.
  intros Hm. unfold resume.
  destruct (nth_error (running st) k) as [a|]; [|exact Hm].
  destruct sig; simpl; try exact Hm.
  - destruct (stopGeneration st); simpl; now rewrite Hm.
  - now rewrite Hm.
  - now rewrite Hm.
Qed.

(** A stream still running when the chat is cleared writes nothing into
    the cleared list: whatever its stream delivers afterwards (fragments,
    end, failure), the list stays empty and the fresh, unseeded session
    stays in place. *)
Theorem cleared_list_stays_empty evs st :
  forallb isStream evs = true ->
  messages (run_events evs (handleClearChat true st)) = []
  /\ geminiService (run_events evs (handleClearChat true st))
     = mkService (Some (mkChat None)).
Proof.
  intros Hevs.
  assert (H : forall st', messages st' = [] ->
            geminiService st' = mkService (Some (mkChat None)) ->
            messages (run_events evs st') = []
            /\ geminiService (run_events evs st')
               = mkService (Some (mkChat None))).
  { induction evs as [|ev evs IH]; intros st' Hm Hg; [now split|].
    simpl in Hevs. apply andb_true_iff in Hevs as [Hev Hevs].
    destruct ev; try discriminate. cbn [run_events fold_left step].
    apply (IH Hevs).
    - now apply resume_keeps_empty.
    - now rewrite resume_service. }
  now apply H.
Qed.

Lemma cleared_list_stays_empty_witness :
  messages
    (run_events [Stream 0 (Chunk (Some (units "lo"))); Stream 0 Done]
       (handleClearChat true (run_events streaming_answer mounted)))
  = [].
Proof.
  apply (@cleared_list_stays_empty
           [Stream 0 (Chunk (Some (units "lo"))); Stream 0 Done]
           (run_events streaming_answer mounted)).
  reflexivity.
Defined.

Lemma guarded_runs_stream_one_message_witness :
  streamingCount (messages (run_events starter_exchange mounted)) <= 1.
Proof.
  apply guarded_runs_stream_one_message. vm_compute. reflexivity.
Defined.

(** In every run in which chips and the buttons of the empty state are
    clicked and edits saved only while no send is outstanding, every
    clicked chip is a string, and every send creates new ids, the loading
    flag tells exactly whether a send is in flight: while it is up exactly
    one send is suspended, and once it is down none is and no message is
    streaming. *)
Theorem guarded_runs_loading_flag evs :
  admissibleRun mounted evs = true ->
  (isLoading (run_events evs mounted) = true ->
   length (running (run_events evs mounted)) = 1)
  /\ (isLoading (run_events evs mounted) = false ->
      running (run_events evs mounted) = []
      /\ streamingCount (messages (run_events evs mounted)) = 0).
Proof.
  intros Ha.
  assert (H : Inv (run_events evs mounted))
    by (apply inv_run; [now apply Idle|exact Ha]).
  destruct H as [Hl Hr Hc|a Hl Hr Hm|a pre m Hl Hr Hm Hid Hu Hc];
    split; intros Hx; try congruence.
  - now split.
  - now rewrite Hr.
  - now rewrite Hr.
Qed.

Lemma guarded_runs_loading_flag_witness :
  length (running (run_events starter_exchange mounted)) = 1.
Proof.
  apply (proj1 (@guarded_runs_loading_flag starter_exchange eq_refl)).
  reflexivity.
Defined.

Lemma findIndex_unused msgId ms :
  unused msgId ms = true ->
  findIndex (fun m => eqb_string (id m) msgId) ms = (-1)%Z.
Proof.
  unfold unused. induction ms as [|m ms IH]; simpl; [reflexivity|].
  intros H. apply andb_true_iff in H as [H1 H2].
  apply negb_true_iff in H1. rewrite H1, (IH H2). reflexivity.
Qed.

(** Regenerate does nothing unless the list ends with a user message
    followed by a model message: not on a list shorter than two, not when
    the last message is a user message, not when the message before the
    last is a model message. *)
Theorem regenerate_needs_user_then_model clk st :
  length (messages st) < 2
  \/ (exists hist A B,
        messages st = hist ++ [A; B] /\ (role A = MODEL \/ role B = USER)) ->
  handleRegenerate clk st = st.
Proof.
  intros [Hlen|(hist & A & B & Hm & Hrole)]; unfold handleRegenerate.
  - destruct (messages st) as [|x [|y l]]; simpl in Hlen; try lia.
    + reflexivity.
    + simpl. destruct (isLoading st); [reflexivity|].
      destruct (Role_eqb (role x) MODEL); reflexivity.
  - rewrite Hm.
    assert (Hl : Z.of_nat (length (hist ++ [A; B]))
                 = (Z.of_nat (length hist) + 2)%Z)
      by (rewrite length_app; simpl; lia).
    rewrite Hl.
    destruct ((Z.of_nat (length hist) + 2 =? 0)%Z || isLoading st);
      [reflexivity|].
    replace (Z.of_nat (length hist) + 2 - 1)%Z
      with (Z.of_nat (length (hist ++ [A]))) by (rewrite length_app; simpl; lia).
    replace (Z.of_nat (length hist) + 2 - 2)%Z
      with (Z.of_nat (length hist)) by lia.
    change (hist ++ [A; B]) with (hist ++ [A] ++ [B]).
    rewrite app_assoc, Array_get_app, <- app_assoc. simpl app.
    rewrite Array_get_app.
    destruct Hrole as [HA|HB].
    + rewrite HA. now destruct (Role_eqb (role B) MODEL).
    + now rewrite HB.
Qed.

Lemma regenerate_needs_user_then_model_witness :
  handleRegenerate (at_time 300)
    (mkState [sU1; sM1; sU2] false None false (mkService None) [])
  = mkState [sU1; sM1; sU2] false None false (mkService None) [].
Proof.
  apply regenerate_needs_user_then_model. right.
  exists [sU1], sM1, sU2. split; [reflexivity|now left].
Defined.

(** Edit does nothing when no message carries the id, and nothing when the
    first message that carries it is a model message. *)
Theorem edit_needs_known_user_message msgId T clk st :
  unused msgId (messages st) = true
  \/ (exists hist M rest,
        messages st = hist ++ M :: rest
        /\ unused msgId hist = true /\ id M = msgId /\ role M = MODEL) ->
  handleEdit msgId T clk st = st.
Proof.
  intros [Hu|(hist & M & rest & Hm & Hu & Hid & HM)]; unfold handleEdit.
  - now rewrite (findIndex_unused _ _ Hu).
  - rewrite Hm, findIndex_app.
    + destruct (Z.eqb_spec (Z.of_nat (length hist)) (-1)); [lia|].
      now rewrite Array_get_app, HM.
    + intros z Hz. apply eqb_string_neq. now apply (@unused_spec _ _ Hu).
    + rewrite Hid. apply eqb_string_refl.
Qed.

Lemma edit_needs_known_user_message_witness :
  handleEdit (units "999") (units "how") (at_time 300) two_turns = two_turns
  /\ handleEdit (id sM1) (units "how") (at_time 300) two_turns = two_turns.
Proof.
  split.
  - apply edit_needs_known_user_message. left. reflexivity.
  - apply edit_needs_known_user_message. right.
    exists [sU1], sM1, [sU2; sM2]. repeat split; reflexivity.
Defined.

(** Edit at any position of a conversation of any length (the edited
    message being the first with its id): every message from the edited one
    on is dropped, the session is seeded with exactly the messages before
    it, the new text is sent on that session, and sends already in flight
    stay in flight. *)
Theorem edit_at_any_position hist U rest T clk st :
  messages st = hist ++ U :: rest ->
  unused (id U) hist = true ->
  role U = USER ->
  handleEdit (id U) T clk st
  = mkState (hist ++ [userMessage T clk; placeholder clk [] true])
      true None false
      (mkService
         (Some (mkChat
                  (Some (map (fun m => mkContent (role m) [content m]) hist)))))
      (running st
       ++ [mkActivation (toString (now_ai clk + 1)) []
             (mkRequest
                (mkChat
                   (Some (map (fun m => mkContent (role m) [content m]) hist)))
                T)]).
Proof.
  intros Hm Hu HU.
  rewrite (@edit_acts hist U rest T clk st Hm Hu HU), handleSendMessage_eq.
  unfold historyForSdk. simpl. now rewrite <- app_assoc.
Qed.

Lemma edit_at_any_position_witness :
  handleEdit (id sU2) (units "hey") (at_time 300) two_turns
  = mkState [sU1; sM1; userMessage (units "hey") (at_time 300);
             placeholder (at_time 300) [] true]
      true None false
      (mkService
         (Some (mkChat (Some [mkContent USER [units "hi"];
                              mkContent MODEL [units "yo"]]))))
      [mkActivation (units "301") []
         (mkRequest
            (mkChat (Some [mkContent USER [units "hi"];
                           mkContent MODEL [units "yo"]]))
            (units "hey"))].
Proof.
  apply (@edit_at_any_position [sU1; sM1] sU2 [sM2] (units "hey")
           (at_time 300) two_turns); reflexivity.
Defined.

(** Regenerate on a conversation of any length that ends with a user
    message followed by a model message, with the loading flag down: the
    last model message is replaced by a streaming placeholder, the session
    is seeded with exactly the messages before the user message, and that
    user message's text is sent again on it. *)
Theorem regenerate_at_any_length hist U M clk st :
  messages st = hist ++ [U; M] ->
  role U = USER ->
  role M = MODEL ->
  isLoading st = false ->
  handleRegenerate clk st
  = mkState (hist ++ [U; placeholder clk [] true]) true None false
      (mkService
         (Some (mkChat
                  (Some (map (fun m => mkContent (role m) [content m]) hist)))))
      (running st
       ++ [mkActivation (toString (now_ai clk + 1)) []
             (mkRequest
                (mkChat
                   (Some (map (fun m => mkContent (role m) [content m]) hist)))
                (content U))]).
Proof.
  intros Hm HU HM Hl.
  rewrite (@regenerate_acts hist U M clk st Hm HU HM Hl), handleSendMessage_eq.
  unfold historyForSdk. simpl. now rewrite <- app_assoc.
Qed.

Lemma regenerate_at_any_length_witness :
  handleRegenerate (at_time 300) two_turns
  = mkState [sU1; sM1; sU2; placeholder (at_time 300) [] true]
      true None false
      (mkService
         (Some (mkChat (Some [mkContent USER [units "hi"];
                              mkContent MODEL [units "yo"]]))))
      [mkActivation (units "301") []
         (mkRequest
            (mkChat (Some [mkContent USER [units "hi"];
                           mkContent MODEL [units "yo"]]))
            (units "why"))].
Proof.
  apply (@regenerate_at_any_length [sU1; sM1] sU2 sM2 (at_time 300)
           two_turns); reflexivity.
Defined.

(** A failure of the stream after stop was requested is handled like any
    failure: the banner is set, the accumulated text is kept (or replaced
    by the failure text when there is none), and the send is settled. *)
Theorem stop_does_not_mask_failure st0 text clk chunks :
  running st0 = [] ->
  unused (toString (now_ai clk + 1)) (messages st0 ++ [userMessage text clk])
  = true ->
  resume 0 (relay Failure)
    (handleStop (fragments 0 chunks (handleSendMessage text false clk st0)))
  = mkState
      (messages st0
       ++ [userMessage text clk;
           placeholder clk
             (match concat chunks with
              | [] => failureText
              | _ :: _ => concat chunks
              end) false])
      false (Some errorBanner) false
      (geminiService (handleSendMessage text false clk st0)) [].
Proof.
  intros Hidle Hfresh. simpl relay.
  rewrite (@streaming_state st0 text clk chunks Hidle).
  unfold handleStop, resume, settle, setMessages. simpl.
  change (messages st0 ++ [userMessage text clk; placeholder clk (concat chunks) true])
    with (messages st0 ++ [userMessage text clk] ++ [placeholder clk (concat chunks) true]).
  rewrite app_assoc. unfold placeholder.
  rewrite markFailed_last by exact (@unused_spec _ _ Hfresh).
  rewrite <- app_assoc. now rewrite handleSendMessage_eq.
Qed.

Lemma stop_does_not_mask_failure_witness :
  error
    (resume 0 (relay Failure)
       (handleStop
          (fragments 0 [units "Hel"]
             (handleSendMessage (units "hi") false (at_time 100) mounted))))
  = Some errorBanner.
Proof.
  rewrite (@stop_does_not_mask_failure mounted (units "hi") (at_time 100)
             [units "Hel"] eq_refl eq_refl).
  reflexivity.
Defined.

(** After a failed send, a click on regenerate retries it: the failed
    model message is replaced by a new streaming placeholder, the banner is
    cleared, the session is seeded with the messages before the user's
    turn, and the same text is sent again. *)
Theorem regenerate_retries_failed_send st0 text clk chunks clk' :
  running st0 = [] ->
  unused (toString (now_ai clk + 1)) (messages st0 ++ [userMessage text clk])
  = true ->
  regenerateClick clk'
    (resume 0 (relay Failure)
       (fragments 0 chunks (handleSendMessage text false clk st0)))
  = mkState
      (messages st0 ++ [userMessage text clk; placeholder clk' [] true])
      true None false
      (mkService
         (Some (mkChat
                  (Some (map (fun m => mkContent (role m) [content m])
                             (messages st0))))))
      [mkActivation (toString (now_ai clk' + 1)) []
         (mkRequest
            (mkChat
               (Some (map (fun m => mkContent (role m) [content m])
                          (messages st0))))
            text)].
Proof.
  intros Hidle Hfresh. simpl relay.
  rewrite (@failed_state st0 text clk chunks Hidle Hfresh).
  set (failed := placeholder clk _ false).
  unfold regenerateClick. cbn [messages].
  replace (Z.of_nat (length (messages st0 ++ [userMessage text clk; failed])) - 1)%Z
    with (Z.of_nat (length (messages st0 ++ [userMessage text clk])))
    by (rewrite !length_app; simpl; lia).
  change (messages st0 ++ [userMessage text clk; failed])
    with (messages st0 ++ [userMessage text clk] ++ [failed]).
  rewrite app_assoc, Array_get_app, <- app_assoc. simpl app.
  change (Role_eqb (role failed) MODEL && negb (isStreaming failed)) with true.
  cbv iota.
  match goal with
  | |- handleRegenerate clk' ?s = _ =>
      rewrite (@regenerate_acts (messages st0) (userMessage text clk) failed
                 clk' s eq_refl eq_refl eq_refl eq_refl)
  end.
  rewrite handleSendMessage_eq. unfold historyForSdk. simpl.
  now rewrite <- app_assoc.
Qed.

Lemma regenerate_retries_failed_send_witness :
  regenerateClick (at_time 300)
    (resume 0 (relay Failure)
       (fragments 0 []
          (handleSendMessage (units "why") false (at_time 200)
             (run_events one_exchange mounted))))
  = mkState
      [userMessage (units "hi") (at_time 100);
       placeholder (at_time 100) (units "yo") false;
       userMessage (units "why") (at_time 200);
       placeholder (at_time 300) [] true]
      true None false
      (mkService
         (Some (mkChat (Some [mkContent USER [units "hi"];
                              mkContent MODEL [units "yo"]]))))
      [mkActivation (units "301") []
         (mkRequest
            (mkChat (Some [mkContent USER [units "hi"];
                           mkContent MODEL [units "yo"]]))
            (units "why"))].
Proof.
  apply (@regenerate_retries_failed_send (run_events one_exchange mounted)
           (units "why") (at_time 200) [] (at_time 300));
    vm_compute; reflexivity.
Defined.

(** When the clock advances by exactly one between the two [Date.now()]
    readings of a send, the user message gets the id of the placeholder.
    The update that ends the stream then lands on the user message, the
    first to carry the id: the send is settled and the loading flag is
    down, but the answer goes on streaming. *)
Theorem id_collision_leaves_answer_streaming st0 text clk chunks :
  running st0 = [] ->
  unused (toString (now_ai clk + 1)) (messages st0) = true ->
  now_user clk = (now_ai clk + 1)%Z ->
  resume 0 (relay Done)
    (fragments 0 chunks (handleSendMessage text false clk st0))
  = mkState
      (messages st0
       ++ [userMessage text clk; placeholder clk (concat chunks) true])
      false None false
      (geminiService (handleSendMessage text false clk st0)) [].
Proof.
  intros Hidle Hfresh Hclk.
  rewrite (@streaming_state st0 text clk chunks Hidle).
  unfold resume, settle, setMessages. simpl.
  assert (Hc : clearStreaming (toString (now_ai clk + 1))
                 (messages st0
                  ++ [userMessage text clk; placeholder clk (concat chunks) true])
               = messages st0
                 ++ [userMessage text clk; placeholder clk (concat chunks) true]).
  { unfold clearStreaming. rewrite findIndex_app.
    - destruct (Z.eqb_spec (Z.of_nat (length (messages st0))) (-1)); [lia|].
      simpl negb. cbv iota.
      now rewrite Array_get_app, Nat2Z.id, Array_set_app.
    - intros z Hz. apply eqb_string_neq. now apply (@unused_spec _ _ Hfresh).
    - unfold userMessage. simpl. rewrite Hclk. apply eqb_string_refl. }
  rewrite Hc. now rewrite handleSendMessage_eq.
Qed.

Lemma id_collision_leaves_answer_streaming_witness :
  streamingCount
    (messages
       (resume 0 (relay Done)
          (fragments 0 [units "yo"]
             (handleSendMessage (units "hi") false (ticking 100) mounted))))
  = 1.
Proof.
  rewrite (@id_collision_leaves_answer_streaming mounted (units "hi")
             (ticking 100) [units "yo"] eq_refl eq_refl eq_refl).
  reflexivity.
Defined.





(* ================================================================== *)
(** ** The input box and the edit box *)
(* ================================================================== *)

Lemma trimStart_blank s : trimStart s = [] <-> forallb is_space s = true.
Proof.
  induction s as [|c s IH]; simpl; [tauto|].
  destruct (is_space c); simpl; [exact IH|]. split; discriminate.
Qed.

Lemma forallb_on_rev (A : Type) (f : A -> bool) (l : list A) :
  forallb f (rev l) = forallb f l.
Proof.
  induction l as [|x l IH]; [reflexivity|]. simpl.
  rewrite forallb_app, IH. simpl. rewrite andb_true_r. apply andb_comm.
Qed.

Lemma forallb_trimStart s :
  forallb is_space (trimStart s) = forallb is_space s.
Proof.
  induction s as [|c s IH]; [reflexivity|]. simpl.
  destruct (is_space c) eqn:Hc; [exact IH|]. simpl. now rewrite Hc.
Qed.

(** [trim] leaves nothing exactly of the strings of white space. *)
Lemma trim_blank s : trim s = [] <-> forallb is_space s = true.
Proof.
  unfold trim, trimEnd.
  rewrite <- forallb_trimStart, <- (forallb_on_rev is_space (trimStart s)).
  rewrite <- trimStart_blank. split.
  - intros H. apply (f_equal (@rev N)) in H.
    now rewrite rev_involutive in H.
  - now intros ->.
Qed.

(** The submit button is disabled exactly when a submit would do nothing,
    which is when nothing is loading and the input holds white space only;
    while loading a submit always asks for a stop and keeps the input; a
    text with anything else in it is sent as typed, white space included,
    and the box is emptied. *)
Theorem submit_button_matches_submit input isLoading :
  (ChatInput.submitDisabled input isLoading = true
   <-> ChatInput.handleSubmit input isLoading = (input, ChatInput.Nothing))
  /\ (ChatInput.submitDisabled input isLoading = true
      <-> isLoading = false /\ forallb is_space input = true)
  /\ (isLoading = true ->
      ChatInput.handleSubmit input isLoading = (input, ChatInput.Stop))
  /\ (isLoading = false -> forallb is_space input = false ->
      ChatInput.handleSubmit input isLoading = ([], ChatInput.Send input)).
Proof.
  unfold ChatInput.submitDisabled, ChatInput.handleSubmit.
  pose proof (trim_blank input) as Hb.
  destruct isLoading.
  - rewrite andb_false_r. repeat split; try discriminate.
    intros [H _]. discriminate H.
  - destruct (trim input) as [|c r] eqn:Ht; simpl.
    + repeat split; try discriminate; try reflexivity.
      * now apply Hb.
      * intros _ H. rewrite (proj1 Hb eq_refl) in H. discriminate.
    + repeat split; try discriminate; try reflexivity.
      intros [_ H]. apply Hb in H. discriminate.
Qed.

(** [App] carries out what the input box asks: its [handleSubmit] is the
    box's [handleSubmit] followed by the callback.  So a submit while
    loading, or of white space only, never adds a message. *)
Theorem submit_adds_no_message_when_blank_or_loading input clk st :
  App.handleSubmit input clk st
  = perform (snd (ChatInput.handleSubmit input (isLoading st))) clk st
  /\ (isLoading st = true \/ forallb is_space input = true ->
      messages (App.handleSubmit input clk st) = messages st).
Proof.
  split.
  - unfold App.handleSubmit, ChatInput.handleSubmit.
    destruct (isLoading st); [reflexivity|]. now destruct (trim input).
  - intros H. unfold App.handleSubmit.
    destruct (isLoading st) eqn:Hl.
    + unfold handleStop. now rewrite Hl.
    + destruct H as [H|H]; [discriminate|].
      apply trim_blank in H. now rewrite H.
Qed.

Lemma finalTranscriptFrom_spec results n : forall i acc,
  n = length results - i ->
  ChatInput.finalTranscriptFrom results i n acc
  = acc ++ concat (map ChatInput.transcript
                       (filter ChatInput.isFinal (skipn i results))).
Proof.
  induction n as [|n IH]; intros i acc Hn; simpl.
  - rewrite skipn_all2 by lia. simpl. now rewrite app_nil_r.
  - destruct (nth_error results i) as [r|] eqn:Hr.
    + rewrite (IH (S i)) by lia.
      assert (Hs : skipn i results = r :: skipn (S i) results).
      { clear - Hr. revert i Hr. induction results as [|x l IHl];
          intros [|i]; simpl; try discriminate.
        - now intros [= ->].
        - intros H. now apply IHl. }
      rewrite Hs. simpl. destruct (ChatInput.isFinal r); simpl.
      * now rewrite <- app_assoc.
      * reflexivity.
    + apply nth_error_None in Hr. lia.
Qed.

(** Voice input appends to the input exactly the transcripts of the final
    results from [resultIndex] on, in order; interim results and results
    before [resultIndex] are left out, and what was typed before is
    kept. *)
Theorem voice_input_appends_final_transcripts resultIndex results input :
  ChatInput.onresult resultIndex results input
  = input ++ concat (map ChatInput.transcript
                         (filter ChatInput.isFinal (skipn resultIndex results))).
Proof.
  unfold ChatInput.onresult.
  rewrite (@finalTranscriptFrom_spec results _ resultIndex [] eq_refl).
  simpl. destruct (concat _); [now rewrite app_nil_r|reflexivity].
Qed.

Lemma split_go_length_newline s : forall cur,
  length (split_go EditBox.newline s cur 0)
  = 1 + count_occ N.eq_dec s 10%N.
Proof.
  induction s as [|c s IH]; intros cur; [reflexivity|].
  cbn [split_go]. unfold EditBox.newline at 1. cbn [startsWith].
  destruct (N.eq_dec c 10) as [->|Hne].
  - rewrite N.eqb_refl. simpl andb. cbv iota. simpl length.
    rewrite IH. simpl. destruct (N.eq_dec 10 10); [reflexivity|congruence].
  - assert (Hb : (10 =? c)%N = false) by (apply N.eqb_neq; congruence).
    rewrite Hb. simpl andb. cbv iota. rewrite IH. simpl.
    destruct (N.eq_dec c 10); [congruence|reflexivity].
Qed.

(** The edit box shows one row per line of the text being edited, but
    never fewer than two and never more than ten. *)
Theorem edit_box_rows editContent :
  EditBox.rows editContent
  = Z.min 10 (Z.max 2 (1 + Z.of_nat (count_occ N.eq_dec editContent 10%N)))
  /\ (2 <= EditBox.rows editContent <= 10)%Z.
Proof.
  unfold EditBox.rows, split. unfold EditBox.newline at 1.
  change [10%N] with EditBox.newline.
  rewrite split_go_length_newline. split; lia.
Qed.

Example voice_input_sample :
  ChatInput.onresult 1 heard (units "say: ") = units "say: hello world".
Proof. reflexivity. Qed.

(* ================================================================== *)
(** ** Sends that overlap *)
(* ================================================================== *)

Lemma setContent_other aiId acc l m :
  id m <> aiId -> setContent aiId acc (l ++ [m]) = l ++ [m].
Proof.
  intros Hne. unfold setContent.
  replace (Z.of_nat (length (l ++ [m])) - 1)%Z
    with (Z.of_nat (length l)) by (rewrite length_app; simpl; lia).
  rewrite Array_get_app, (eqb_string_neq Hne). now rewrite andb_false_r.
Qed.

(** A fragment reaches the list only while the placeholder of its send is
    the last message.  Once another message has been appended after it (a
    second send started meanwhile), the fragments of the first send are
    still accumulated by that send but no longer shown. *)
Theorem overtaken_send_drops_fragments k a chunk l m st :
  nth_error (running st) k = Some a ->
  stopGeneration st = false ->
  messages st = l ++ [m] ->
  id m <> aiMessageId a ->
  messages (resume k (Yield chunk) st) = messages st
  /\ nth_error (running (resume k (Yield chunk) st)) k
     = Some (mkActivation (aiMessageId a) (accumulatedText a ++ chunk)
                          (stream a)).
Proof.
  intros Hk Hs Hm Hne. unfold resume. rewrite Hk, Hs. simpl. split.
  - rewrite Hm. now apply setContent_other.
  - clear - Hk. revert k Hk. induction (running st) as [|x r IH];
      intros [|k]; simpl; try discriminate; auto.
Qed.

Lemma overtaken_send_drops_fragments_witness :
  messages
    (resume 0 (Yield (units "late"))
       (run_events (first_exchange
                    ++ [Submit (units "again") (at_time 200);
                        SuggestionClick 1 0 (at_time 300)]) mounted))
  = messages
      (run_events (first_exchange
                   ++ [Submit (units "again") (at_time 200);
                       SuggestionClick 1 0 (at_time 300)]) mounted).
Proof.
  eapply (@overtaken_send_drops_fragments 0 _ (units "late")
            (firstn 5 (messages (run_events chip_during_stream mounted)))
            (placeholder (at_time 300) [] true)).
  - vm_compute. reflexivity.
  - vm_compute. reflexivity.
  - vm_compute. reflexivity.
  - vm_compute. discriminate.
Defined.

Lemma submit_button_matches_submit_witness :
  ChatInput.handleSubmit (units " hi ") false
  = ([], ChatInput.Send (units " hi ")).
Proof.
  apply (proj2 (proj2 (proj2
           (submit_button_matches_submit (units " hi ") false))));
    reflexivity.
Defined.

Lemma submit_adds_no_message_when_blank_or_loading_witness :
  messages (App.handleSubmit (units "  ") (at_time 5) mounted)
  = messages mounted.
Proof.
  apply (proj2 (submit_adds_no_message_when_blank_or_loading
                  (units "  ") (at_time 5) mounted)).
  right. reflexivity.
Defined.

(* ================================================================== *)
(** ** Saving an edit *)
(* ================================================================== *)

Lemma eqb_string_eq a b : eqb_string a b = true -> a = b.
Proof. unfold eqb_string. now destruct (list_eq_dec N.eq_dec a b). Qed.

(** Saving the edit box of a settled user message (the first with its
    id): the text is compared after trimming but sent as typed.  A text
    whose trimmed form equals the message is dropped; any other text,
    white space included, replaces the message and everything after it
    and is sent.  So saving a message unchanged sends it again exactly
    when it begins or ends with white space. *)
Theorem save_edit_compares_trimmed_sends_untrimmed hist U rest T clk st :
  messages st = hist ++ U :: rest ->
  unused (id U) hist = true ->
  role U = USER ->
  isStreaming U = false ->
  (trim T = content U -> saveEdit (length hist) T clk st = st)
  /\ (trim T <> content U ->
      saveEdit (length hist) T clk st
      = mkState (hist ++ [userMessage T clk; placeholder clk [] true])
          true None false
          (mkService (Some (mkChat (Some (historyForSdk hist)))))
          (running st
           ++ [mkActivation (toString (now_ai clk + 1)) []
                 (mkRequest (mkChat (Some (historyForSdk hist))) T)]))
  /\ (saveEdit (length hist) (content U) clk st = st
      <-> trim (content U) = content U).
Proof.
  intros Hm Hu HU Hs.
  assert (Hn : nth_error (messages st) (length hist) = Some U).
  { rewrite Hm, nth_error_app2 by lia. now rewrite Nat.sub_diag. }
  assert (Hsend : forall T', trim T' <> content U ->
      saveEdit (length hist) T' clk st
      = mkState (hist ++ [userMessage T' clk; placeholder clk [] true])
          true None false
          (mkService (Some (mkChat (Some (historyForSdk hist)))))
          (running st
           ++ [mkActivation (toString (now_ai clk + 1)) []
                 (mkRequest (mkChat (Some (historyForSdk hist))) T')])).
  { intros T' Hne. unfold saveEdit. rewrite Hn, HU, Hs. simpl.
    rewrite (eqb_string_neq Hne).
    rewrite (@edit_acts hist U rest T' clk st Hm Hu HU), handleSendMessage_eq.
    simpl. now rewrite <- app_assoc. }
  assert (Hdrop : forall T', trim T' = content U ->
      saveEdit (length hist) T' clk st = st).
  { intros T' He. unfold saveEdit. rewrite Hn, HU, Hs. simpl.
    now rewrite He, eqb_string_refl. }
  split; [apply Hdrop|]. split; [apply Hsend|]. split.
  - intros He.
    destruct (list_eq_dec N.eq_dec (trim (content U)) (content U)) as [|Hne];
      [assumption|].
    rewrite (Hsend _ Hne) in He.
    apply (f_equal (fun s => length (running s))) in He. simpl in He.
    rewrite length_app in He. simpl in He. lia.
  - apply Hdrop.
Qed.

Lemma save_edit_compares_trimmed_sends_untrimmed_witness :
  saveEdit 0 (units " hi ") (at_time 300)
    (mkState [mkMessage (units "1") USER (units " hi ") 0 false;
              mkMessage (units "2") MODEL (units "Hello") 0 false]
       false None false (mkService None) [])
  = mkState [userMessage (units " hi ") (at_time 300);
             placeholder (at_time 300) [] true]
      true None false
      (mkService (Some (mkChat (Some (historyForSdk [])))))
      [mkActivation (toString (now_ai (at_time 300) + 1)) []
         (mkRequest (mkChat (Some (historyForSdk []))) (units " hi "))].
Proof.
  apply (proj1 (proj2
           (@save_edit_compares_trimmed_sends_untrimmed
              [] (mkMessage (units "1") USER (units " hi ") 0 false)
              [mkMessage (units "2") MODEL (units "Hello") 0 false]
              (units " hi ") (at_time 300)
              (mkState [mkMessage (units "1") USER (units " hi ") 0 false;
                        mkMessage (units "2") MODEL (units "Hello") 0 false]
                 false None false (mkService None) [])
              eq_refl eq_refl eq_refl eq_refl))).
  vm_compute. discriminate.
Defined.

(* ================================================================== *)
(** ** The session and overlapping sends *)
(* ================================================================== *)

Lemma send_hasSession text b clk st :
  hasSession (handleSendMessage text b clk st).
Proof.
  unfold hasSession, handleSendMessage, sendMessageStream.
  destruct (geminiService st) as [[chat|]]; simpl; discriminate.
Qed.

Lemma step_hasSession st ev : hasSession st -> hasSession (step st ev).
Proof.
  intros H. destruct ev as [input clk|i j clk|i T clk|clk|c|k e|second clk];
    simpl.
  - unfold handleSubmit. destruct (isLoading st) eqn:Hl.
    + unfold handleStop. now rewrite Hl.
    + destruct (trim input); [assumption|apply send_hasSession].
  - unfold suggestionClick.
    destruct (nth_error (messages st) i) as [m|]; [|assumption].
    destruct (nth_error _ j) as [v|]; [|assumption].
    destruct v; try assumption.
    destruct (Role_eqb (role m) USER); [assumption|apply send_hasSession].
  - unfold saveEdit.
    destruct (nth_error (messages st) i) as [m|]; [|assumption].
    destruct (_ && _)%bool; [|assumption].
    destruct (eqb_string _ _); [assumption|].
    unfold handleEdit. destruct (_ =? -1)%Z; [assumption|].
    destruct (Array_get _ _) as [m'|]; [|assumption].
    destruct (negb _); [assumption|apply send_hasSession].
  - unfold regenerateClick.
    destruct (Array_get _ _) as [m|]; [|assumption].
    destruct (_ && _)%bool; [|assumption].
    unfold handleRegenerate.
    destruct (_ || _)%bool; [assumption|].
    match goal with |- hasSession (let (_, _) := ?t in _) => destruct t end.
    destruct (negb _); [apply send_hasSession|assumption].
  - destruct c; [discriminate|assumption].
  - unfold hasSession. now rewrite resume_service.
  - unfold starterClick.
    destruct (messages st); [apply send_hasSession|assumption].
Qed.

(** Whatever happens to the mounted component, the service holds a
    session: the adapter's own creation of a session inside
    [sendMessageStream] is never reached from the component, so no send
    of the component goes to a session other than the one the component
    started last. *)
Theorem session_always_present evs text :
  let svc := geminiService (run_events evs mounted) in
  chatSession svc <> None
  /\ fst (sendMessageStream text svc) = svc
  /\ Some (session (snd (sendMessageStream text svc))) = chatSession svc.
Proof.
  assert (H : hasSession (run_events evs mounted)).
  { unfold run_events.
    assert (G : forall st, hasSession st -> hasSession (fold_left step evs st)).
    { induction evs as [|ev evs IH]; intros st Hs; [exact Hs|].
      simpl. apply IH, step_hasSession, Hs. }
    apply G. discriminate. }
  unfold hasSession in H. cbv zeta. split; [exact H|].
  unfold sendMessageStream.
  destruct (chatSession (geminiService (run_events evs mounted)))
    as [chat|] eqn:Hc; [|congruence].
  simpl. rewrite Hc. simpl. auto.
Qed.

Lemma remove_nth_length (A : Type) (l : list A) : forall k,
  k < length l -> length (remove_nth l k) = length l - 1.
Proof.
  induction l as [|x l IH]; intros [|k] Hk; simpl in *; try lia.
  rewrite IH by lia. lia.
Qed.

(** The loading flag and the stop flag are shared by all sends.  When one
    of several sends in flight is over (its stream ends or fails, or it
    meets a raised stop flag at its next fragment), the loading flag drops
    and the stop flag is lowered although the other sends are still in
    flight: a stop request ends one send only. *)
Theorem end_of_one_send_lowers_shared_flags k a sig st :
  nth_error (running st) k = Some a ->
  2 <= length (running st) ->
  sig = Return \/ sig = Throw
  \/ (stopGeneration st = true /\ exists chunk, sig = Yield chunk) ->
  isLoading (resume k sig st) = false
  /\ stopGeneration (resume k sig st) = false
  /\ 1 <= length (running (resume k sig st)).
Proof.
  intros Hk Hlen Hsig.
  assert (Hlt : k < length (running st))
    by (apply nth_error_Some; congruence).
  assert (Hr : resume k sig st
               = settle k (setMessages (clearStreaming (aiMessageId a)) st)
               \/ resume k sig st
                  = settle k (setMessages (markFailed (aiMessageId a))
                       (mkState (messages st) (isLoading st)
                          (Some errorBanner) (stopGeneration st)
                          (geminiService st) (running st)))).
  { unfold resume. rewrite Hk.
    destruct Hsig as [->|[->|[Hs [chunk ->]]]]; [now left|now right|].
    rewrite Hs. now left. }
  destruct Hr as [-> | ->]; unfold settle, setMessages; simpl;
    rewrite remove_nth_length by assumption; repeat split; lia.
Qed.

Lemma end_of_one_send_lowers_shared_flags_witness :
  isLoading
    (resume 0 Return
       (run_events (first_exchange
                    ++ [Submit (units "again") (at_time 200);
                        SuggestionClick 1 0 (at_time 300)]) mounted))
  = false
  /\ stopGeneration
       (resume 0 Return
          (run_events (first_exchange
                       ++ [Submit (units "again") (at_time 200);
                           SuggestionClick 1 0 (at_time 300)]) mounted))
     = false
  /\ 1 <= length
            (running
               (resume 0 Return
                  (run_events (first_exchange
                               ++ [Submit (units "again") (at_time 200);
                                   SuggestionClick 1 0 (at_time 300)])
                     mounted))).
Proof.
  eapply (@end_of_one_send_lowers_shared_flags 0 _ Return).
  - vm_compute. reflexivity.
  - vm_compute. lia.
  - now left.
Defined.

(* ================================================================== *)
(** ** The session and the message list *)
(* ================================================================== *)






Lemma component_trackRun p evs : forall t,
  component (trackRun p evs t) = run_events evs (component t).
Proof.
  induction evs as [|ev evs IH]; intros t; [reflexivity|].
  simpl. now rewrite IH.
Qed.









